(** * restful-api-test-suite: the helpers behind the API tests

    A shallow embedding of the TypeScript helpers of the suite
    ([APITestUtils], [TestHelpers], [BaseAPIClient], [ProductsAPI], and
    the requests of [CartAPI] and [AuthAPI]), the properties of them that
    the design document states, and further properties that the code
    shows.

    Conventions of the embedding.
    - A JavaScript [number] is an IEEE 754 binary64 value: Rocq's primitive
      [float], so that [0 / 0] really evaluates to NaN.
    - Array lengths, indices and millisecond counts are integers ([nat], [Z]).
    - A JavaScript string is the sequence of the bytes of its UTF-8 encoding.
    - Promises are run to completion: an [async] function becomes a function
      of the world it runs in, and a settled promise is [Resolved] or
      [Rejected].
    - Arrays are mutable objects: they live in a [heap] and are passed by
      reference. *)

From Stdlib Require Import ZArith List String Ascii Lia Bool.
From Stdlib Require Import Floats Numbers.Cyclic.Int63.Uint63.
From Stdlib Require Import Sorting.Permutation Sorting.Sorted.
From Stdlib Require Import Numbers.DecimalString.
From stdpp Require Import base list.

Import ListNotations.
Open Scope Z_scope.

(** ** JavaScript values and built-ins *)

Module JS.

(** A [number]. *)
Abbreviation number := float (only parsing).

(** The values that the helpers throw, catch and rethrow. [VError name
    message] is an instance of the error class [name], as built by
    [new Error(message)] when [name] is ["Error"]. *)
Inductive value : Type :=
| VUndefined
| VBoolean (b : bool)
| VNumber (n : number)
| VString (s : string)
| VError (name : string) (message : string).

(** How a promise settles. *)
Inductive settled (T : Type) : Type :=
| Resolved (v : T)
| Rejected (e : value).
Arguments Resolved {T} v.
Arguments Rejected {T} e.

(** How a call ends: [return v] or [throw e]. *)
Inductive completion (T : Type) : Type :=
| Return (v : T)
| Throw (e : value).
Arguments Return {T} v.
Arguments Throw {T} e.

(** [instanceof]: is the value an instance of the error class [cls]? *)
Definition instance_of (cls : string) (v : value) : bool :=
  match v with
  | VError name _ => String.eqb name cls
  | _ => false
  end.

(** The length of an array as a [number]. Array lengths are below 2^32,
    where the conversion is exact. *)
Definition number_of_nat (n : nat) : number :=
  PrimFloat.of_uint63 (Uint63.of_Z (Z.of_nat n)).

(** ToString of an integer-valued [number], as a template literal
    [`${n}`] performs it: decimal digits, with a minus sign when
    negative. This is what ToString gives for the integers of magnitude
    below [2^53], which a number holds exactly; from [10^21] on it
    switches to the exponent form. *)
Definition string_of_Z (z : Z) : string :=
  NilZero.string_of_int (Z.to_int z).

(** *** Arrays of numbers *)

(** [a[i]]: [None] is [undefined], the result of reading outside the
    array (a negative index included). *)
Definition get (a : list number) (i : Z) : option number :=
  if i <? 0 then None else a !! Z.to_nat i.

(** [Array.prototype.reduce] with an initial value. *)
Definition reduce {A B : Type} (f : B -> A -> B) (init : B) (a : list A) : B :=
  fold_left f a init.

(** [Array.prototype.sort(comparefn)]. The comparator's result [v] is
    read as ECMAScript's SortCompare reads it: [v > 0] puts the first
    argument after the second; a negative, zero or NaN result leaves
    them in order. The sort is stable (ECMAScript 2019), which an
    insertion from the right realises: an element is placed before the
    first element it does not have to follow. Where the comparator is
    consistent, the stable order is unique and every engine gives it.
    Where it is not, ECMAScript leaves the order to the engine, and
    this insertion gives one such order, not necessarily the engine's:
    what is said of the order of a sorted array is said for the arrays
    on which the comparator is consistent. *)
Fixpoint insert_sorted {A : Type} (comparefn : A -> A -> number) (x : A)
    (l : list A) : list A :=
  match l with
  | [] => [x]
  | y :: l' =>
      if (0 <? comparefn x y)%float
      then y :: insert_sorted comparefn x l'
      else x :: y :: l'
  end.

Fixpoint sort {A : Type} (comparefn : A -> A -> number) (l : list A) : list A :=
  match l with
  | [] => []
  | x :: l' => insert_sorted comparefn x (sort comparefn l')
  end.

(** The order that a comparator induces: [x] need not follow [y]. *)
Definition not_after {A : Type} (comparefn : A -> A -> number) (x y : A) : Prop :=
  (0 <? comparefn x y)%float = false.

(** The comparator never asks for two elements of [l] to be put each
    after the other. *)
Definition asymmetric_on {A : Type} (comparefn : A -> A -> number)
    (l : list A) : Prop :=
  forall x y, x ∈ l -> y ∈ l ->
    (0 <? comparefn x y)%float = true -> (0 <? comparefn y x)%float = false.

(** An array of numbers without a NaN. On such an array the comparator
    [(a, b) => a - b] is consistent: its sign is that of the comparison
    of [a] with [b] (the difference of two infinities of the same sign,
    a NaN, counts as zero between equal elements). With a NaN in the
    array it is not, as NaN then compares equal both to [1] and to
    [2]. *)
Definition NaN_free (a : list number) : bool :=
  forallb (fun x => negb (PrimFloat.is_nan x)) a.

(** Ascending order: every element is at most every later one. *)
Definition ascending (a : list number) : Prop :=
  StronglySorted (fun x y => (x <=? y)%float = true) a.

(** A strictly positive value of the specification of floats. *)
Definition SFpositive (z : spec_float) : bool :=
  match z with
  | S754_infinity false | S754_finite false _ _ => true
  | _ => false
  end.

(** The value of a number in units of the least positive number,
    [2^emin]: [m * 2^(e - emin)] for the finite number [m * 2^e], an
    integer as no exponent is below [emin]. The infinities are put
    beyond the finite numbers, at [2^(emax - emin)]. *)
Definition SFscaled (x : spec_float) : Z :=
  match x with
  | S754_zero _ | S754_nan => 0
  | S754_infinity s => cond_Zopp s (2 ^ (emax - emin))
  | S754_finite s m e => cond_Zopp s (Zpos m * 2 ^ (e - emin))
  end.

Definition scaled (x : number) : Z := SFscaled (Prim2SF x).

(** *** The heap of arrays *)

(** An array reference is an index into the heap. *)
Abbreviation ref := nat (only parsing).
Abbreviation heap := (list (list number)) (only parsing).

(** [r.sort(comparefn)] sorts the array that [r] refers to in place and
    returns [r] itself, not a copy. *)
Definition Array_sort (comparefn : number -> number -> number) (r : ref)
    (h : heap) : heap * ref :=
  match h !! r with
  | Some a => (<[r := sort comparefn a]> h, r)
  | None => (h, r)
  end.

(** The contents of the array that [r] refers to. *)
Definition deref (h : heap) (r : ref) : list number :=
  default [] (h !! r).

End JS.

(** ** [APITestUtils] *)

Module APITestUtils.
Import JS.

(** The object that [createPerformanceMetrics] returns. Its declared
    type makes the four fields numbers; an element read outside the
    array is [undefined] all the same, hence the options. *)
Record PerformanceMetrics : Type := {
  min : option number;
  max : option number;
  avg : number;
  median : option number
}.

(** [createPerformanceMetrics(responseTimes)]:
<<
  const sorted = responseTimes.sort((a, b) => a - b);
  const sum = responseTimes.reduce((acc, val) => acc + val, 0);
  return {
    min: sorted[0],
    max: sorted[sorted.length - 1],
    avg: sum / responseTimes.length,
    median: sorted[Math.floor(sorted.length / 2)],
  };
>>
    [sorted] and [responseTimes] are the same reference. The heap after
    the call is returned with the metrics. [Math.floor(n / 2)] on an
    array length is the integer quotient. *)
Definition createPerformanceMetrics (responseTimes : ref) (h : heap)
    : heap * PerformanceMetrics :=
  let '(h, sorted) := Array_sort (fun a b => a - b)%float responseTimes h in
  let sum := reduce (fun acc val => acc + val)%float 0%float (deref h responseTimes) in
  let sorted_length := Z.of_nat (length (deref h sorted)) in
  (h,
   {| min := get (deref h sorted) 0;
      max := get (deref h sorted) (sorted_length - 1);
      avg := (sum / number_of_nat (length (deref h responseTimes)))%float;
      median := get (deref h sorted) (sorted_length / 2) |}).

(** A world with a clock: [Date.now()] reads [now], in milliseconds;
    [state] is whatever else the callbacks act on (the server, say). *)
Record world (S : Type) : Type := World { now : Z; state : S }.
Arguments World {S} now state.
Arguments now {S} w.
Arguments state {S} w.

(** What a polling run did, in order. *)
Inductive event : Type :=
| Evaluated          (* condition() was called and awaited *)
| Slept (ms : Z).    (* a timer of [ms] milliseconds was awaited *)

(** [await new Promise(resolve => setTimeout(resolve, ms))] with a timer
    that fires exactly on time: [ms] milliseconds later; a negative
    delay counts as none. (A platform fires a timer when it gets to it;
    [RealTime] below leaves that open.) *)
Definition sleep {S : Type} (ms : Z) (w : world S) : world S :=
  World (now w + Z.max 0 ms) (state w).

(** The error of an elapsed timeout:
    [new Error(`Condition not met within ${timeout}ms`)]. *)
Definition timeout_error (timeout : Z) : value :=
  VError "Error" ("Condition not met within " ++ string_of_Z timeout ++ "ms").

Definition default_timeout : Z := 10000.
Definition default_interval : Z := 500.

Section waitForCondition.
Context {S : Type}.

(** [condition: () => Promise<boolean>], run in a world: it may take
    time and change the state, and its promise resolves with a
    boolean or rejects with what the predicate threw. *)
Variable condition : world S -> world S * settled bool.
Variables timeout interval : Z.

(** The [while] loop of [waitForCondition]:
<<
while (Date.now() - startTime < timeout) {
  if (await condition()) {
    return;
  }
  await new Promise(resolve => setTimeout(resolve, interval));
}
throw new Error(`Condition not met within ${timeout}ms`);
>>
    There is no [try] around [await condition()]: a rejection leaves
    the function at once. Nothing bounds the number of iterations when
    the clock stands still, so the loop is run with [fuel]; [None] is
    a run that needs more. *)
Fixpoint poll (fuel : nat) (startTime : Z) (w : world S) (log : list event)
    : option (world S * list event * completion unit) :=
  if now w - startTime <? timeout then
    match fuel with
    | O => None
    | Datatypes.S fuel' =>
        match condition w with
        | (w', Rejected e) => Some (w', log ++ [Evaluated], Throw e)
        | (w', Resolved true) => Some (w', log ++ [Evaluated], Return tt)
        | (w', Resolved false) =>
            poll fuel' startTime (sleep interval w')
                 (log ++ [Evaluated; Slept interval])
        end
    end
  else Some (w, log, Throw (timeout_error timeout)).

(** [waitForCondition(condition, timeout, interval)]; a call that
    omits the last two passes [default_timeout] and
    [default_interval]. No time passes here between the reading of
    [startTime] and the first loop test. *)
Definition waitForCondition (fuel : nat) (w : world S)
    : option (world S * list event * completion unit) :=
  let startTime := now w in
  poll fuel startTime w [].

End waitForCondition.

Section validateJSONStructure.
(** [expect] and its matcher [toHaveProperty] come from the test
    runner, not from this repository; they are parameters here.
    [Body] is a parsed JSON body, [has_property body key] tells
    whether [expect(body).toHaveProperty(key)] passes, and
    [expect_error message body key] is the error that the failing
    assertion, built with the custom [message], throws. *)
Variable Body : Type.
Variable has_property : Body -> string -> bool.
Variable expect_error : string -> Body -> string -> value.

(** An [APIResponse], as far as this helper reads it: [response.json()]
    resolves with the parsed body or rejects. *)
Record APIResponse : Type := { json : settled Body }.

(** [expect(body, message).toHaveProperty(key)]: a hard assertion; it
    returns when it passes and throws when it fails. *)
Definition expect_toHaveProperty (body : Body) (message key : string)
    : completion unit :=
  if has_property body key then Return tt
  else Throw (expect_error message body key).

(** The loop [for (const key of expectedKeys) expect(body, `Missing
    key: ${key}`).toHaveProperty(key);]. [checked] lists the keys
    whose assertion has been evaluated so far. *)
Fixpoint check_keys (body : Body) (expectedKeys : list string)
    (checked : list string) : list string * completion unit :=
  match expectedKeys with
  | [] => (checked, Return tt)
  | key :: rest =>
      match expect_toHaveProperty body ("Missing key: " ++ key) key with
      | Return _ => check_keys body rest (checked ++ [key])
      | Throw e => (checked ++ [key], Throw e)
      end
  end.

(** [validateJSONStructure(response, expectedKeys)]: the keys whose
    assertion was evaluated, and how the call ended. *)
Definition validateJSONStructure (response : APIResponse)
    (expectedKeys : list string) : list string * completion unit :=
  match json response with
  | Rejected e => ([], Throw e)
  | Resolved body => check_keys body expectedKeys []
  end.

End validateJSONStructure.

End APITestUtils.

(** ** [TestHelpers] *)

Module TestHelpers.
Import JS.

(** What a retried run did, in order. *)
Inductive event : Type :=
| Invoked            (* action() was called and awaited *)
| Slept (ms : Z).    (* this.sleep(ms) was awaited *)

Definition default_maxAttempts : Z := 3.
Definition default_delayMs : Z := 1000.

Section retry.
Context {S T : Type}.

(** [action: () => Promise<T>], run against the state it acts on: its
    promise resolves with a [T] or rejects with what it threw. *)
Variable action : S -> S * settled T.
Variables maxAttempts delayMs : Z.

(** The [for] loop of [retry], from the value of [attempt] on:
<<
for (let attempt = 1; attempt <= maxAttempts; attempt++) {
  try {
    return await action();
  } catch (error) {
    lastError = error as Error;
    if (attempt < maxAttempts) {
      await this.sleep(delayMs);
    }
  }
}
throw lastError;
>>
    [fuel] bounds the iterations; [None] is a run that needs more
    ([retry] below passes enough). *)
Fixpoint retry_loop (fuel : nat) (attempt : Z) (lastError : value)
    (s : S) (log : list event) : option (S * list event * completion T) :=
  if attempt <=? maxAttempts then
    match fuel with
    | O => None
    | Datatypes.S fuel' =>
        match action s with
        | (s', Resolved v) => Some (s', log ++ [Invoked], Return v)
        | (s', Rejected error) =>
            let lastError := error in
            let log := log ++ [Invoked] in
            let log := if attempt <? maxAttempts then log ++ [Slept delayMs] else log in
            retry_loop fuel' (attempt + 1) lastError s' log
        end
    end
  else Some (s, log, Throw lastError).

(** [retry(action, maxAttempts, delayMs)]: [let lastError: Error |
    undefined;] starts as [undefined]. A call that omits the last two
    arguments passes [default_maxAttempts] and [default_delayMs]. *)
Definition retry (s : S) : option (S * list event * completion T) :=
  retry_loop (Z.to_nat maxAttempts) 1 VUndefined s [].

End retry.

(** How many times the run invoked the action. *)
Definition invocations (log : list event) : nat :=
  length (List.filter (fun e => match e with Invoked => true | _ => false end) log).

(** The state that [k] invocations of the action lead to. *)
Fixpoint state_after {S T : Type} (action : S -> S * settled T) (k : nat) (s : S) : S :=
  match k with
  | O => s
  | Datatypes.S k' => state_after action k' (fst (action s))
  end.

(** The action rejects on each of its first [k] invocations from [s]. *)
Definition fails_first {S T : Type} (action : S -> S * settled T) (k : nat)
    (s : S) : Prop :=
  forall i, (i < k)%nat ->
    exists e, snd (action (state_after action i s)) = Rejected e.

(** The log of [k] failed attempts, each followed by the delay. *)
Fixpoint failed_attempts (delayMs : Z) (k : nat) : list event :=
  match k with
  | O => []
  | Datatypes.S k' => Invoked :: Slept delayMs :: failed_attempts delayMs k'
  end.

End TestHelpers.

(** ** Objects used as records, and [URLSearchParams] *)

Module Record_.
Import JS.

(** The property values that the clients put in [params]: strings and
    integer-valued numbers (counts, offsets, identifiers), the latter
    within the safe-integer range, where ToString prints plain decimal
    digits; and the values of an absent or empty argument. *)
Inductive pvalue : Type :=
| PString (s : string)
| PInteger (z : Z)
| PBoolean (b : bool)
| PUndefined
| PNull.

(** ToString, which [URLSearchParams] applies to every value. *)
Definition to_string (v : pvalue) : string :=
  match v with
  | PString s => s
  | PInteger z => string_of_Z z
  | PBoolean true => "true"
  | PBoolean false => "false"
  | PUndefined => "undefined"
  | PNull => "null"
  end.

(** A [Record<string, any>]: its own properties in creation order. *)
Definition t := list (string * pvalue).

(** [o[k] = v]: an existing property keeps its place and takes the new
    value; a new one is created last. *)
Fixpoint set (k : string) (v : pvalue) (o : t) : t :=
  match o with
  | [] => [(k, v)]
  | (k', v') :: o' =>
      if String.eqb k' k then (k', v) :: o' else (k', v') :: set k v o'
  end.

(** [o[k]]. *)
Fixpoint get (k : string) (o : t) : option pvalue :=
  match o with
  | [] => None
  | (k', v') :: o' => if String.eqb k' k then Some v' else get k o'
  end.

(** An object literal [{k1: v1, ..., kn: vn}] defines its properties
    from left to right. *)
Definition literal (entries : list (string * pvalue)) : t :=
  fold_left (fun o '(k, v) => set k v o) entries [].

(** Is the property key an array index: the canonical decimal form of
    an integer below 2^32 - 1? *)
Definition array_index (k : string) : option N :=
  match NilZero.uint_of_string k with
  | Some u =>
      let n := N.of_uint u in
      if (String.eqb (NilZero.string_of_uint (N.to_uint n)) k
          && (n <? 2 ^ 32 - 1)%N)%bool
      then Some n else None
  | None => None
  end.

Fixpoint insert_index (e : N * (string * pvalue))
    (l : list (N * (string * pvalue))) : list (N * (string * pvalue)) :=
  match l with
  | [] => [e]
  | e' :: l' =>
      if (fst e <=? fst e')%N then e :: e' :: l' else e' :: insert_index e l'
  end.

(** The order in which an object's own properties are enumerated
    (OrdinaryOwnPropertyKeys): the array indices in ascending numeric
    order, then the other keys in creation order. *)
Definition indexed (o : t) : list (N * (string * pvalue)) :=
  omap (fun e => match array_index (fst e) with
                 | Some n => Some (n, e)
                 | None => None
                 end) o.

Definition named (o : t) : t :=
  List.filter (fun e => match array_index (fst e) with
                        | Some _ => false
                        | None => true
                        end) o.

Definition entries (o : t) : list (string * pvalue) :=
  map snd (fold_right insert_index [] (indexed o)) ++ named o.

End Record_.

Module URLSearchParams.

(** The bytes that the application/x-www-form-urlencoded serializer
    leaves as they are: ASCII letters and digits, and [*], [-], [.],
    [_]. *)
Definition unreserved (c : ascii) : bool :=
  let n := nat_of_ascii c in
  ((48 <=? n) && (n <=? 57) || (65 <=? n) && (n <=? 90)
   || (97 <=? n) && (n <=? 122)
   || (n =? 42) || (n =? 45) || (n =? 46) || (n =? 95))%nat.

(** An upper-case hexadecimal digit. *)
Definition hex_digit (n : nat) : ascii :=
  if (n <? 10)%nat then ascii_of_nat (48 + n) else ascii_of_nat (55 + n).

(** One byte, percent-encoded with a space as [+]. *)
Definition encode_byte (c : ascii) : string :=
  if unreserved c then String c EmptyString
  else if Ascii.eqb c " " then "+"
  else String "%"
         (String (hex_digit (nat_of_ascii c / 16))
            (String (hex_digit (nat_of_ascii c mod 16)) EmptyString)).

Fixpoint urlencode (s : string) : string :=
  match s with
  | EmptyString => EmptyString
  | String c s' => (encode_byte c ++ urlencode s')%string
  end.

(** [new URLSearchParams(record)]: one name-value pair for each own
    property of the record, in enumeration order, the value converted
    with ToString. *)
Definition of_record (params : Record_.t) : list (string * string) :=
  map (fun '(k, v) => (k, Record_.to_string v)) (Record_.entries params).

(** One serialized pair, [name=value]. *)
Definition pair_string (p : string * string) : string :=
  (urlencode (fst p) ++ "=" ++ urlencode (snd p))%string.

(** [URLSearchParams.prototype.toString]: the serialized pairs, joined
    with [&]. *)
Definition toString (pairs : list (string * string)) : string :=
  String.concat "&" (map pair_string pairs).

(** The characters that structure a URL's query. *)
Definition delimiter (d : ascii) : Prop :=
  d = "&"%char \/ d = "="%char \/ d = "?"%char.

(** *** Reading a query string back

    [new URLSearchParams(queryString)], the parser of the same
    standard: the string is split at [&], empty pieces are skipped,
    each piece is split at its first [=], and in names and values [+]
    is read as a space and [%XY] as the byte of hexadecimal value
    [XY]. *)

(** The value of a hexadecimal digit of either case. *)
Definition hex_value (c : ascii) : option nat :=
  let n := nat_of_ascii c in
  if ((48 <=? n) && (n <=? 57))%nat then Some (n - 48)%nat
  else if ((65 <=? n) && (n <=? 70))%nat then Some (n - 55)%nat
  else if ((97 <=? n) && (n <=? 102))%nat then Some (n - 87)%nat
  else None.

Fixpoint plus_to_space (s : string) : string :=
  match s with
  | EmptyString => EmptyString
  | String c s' => String (if Ascii.eqb c "+" then " "%char else c) (plus_to_space s')
  end.

Fixpoint percent_decode (s : string) : string :=
  match s with
  | EmptyString => EmptyString
  | String c s1 =>
      if Ascii.eqb c "%" then
        match s1 with
        | String h (String l rest) =>
            match hex_value h, hex_value l with
            | Some a, Some b =>
                String (ascii_of_nat (16 * a + b)) (percent_decode rest)
            | _, _ => String c (percent_decode s1)
            end
        | _ => String c (percent_decode s1)
        end
      else String c (percent_decode s1)
  end.

Definition urldecode (s : string) : string :=
  percent_decode (plus_to_space s).

(** The part of [s] before the first [sep], and the part after it when
    there is one. *)
Fixpoint split_first (sep : ascii) (s : string) : string * option string :=
  match s with
  | EmptyString => (EmptyString, None)
  | String c s' =>
      if Ascii.eqb c sep then (EmptyString, Some s')
      else let '(a, b) := split_first sep s' in (String c a, b)
  end.

(** [s.split(sep)]. *)
Fixpoint split (sep : ascii) (s : string) : list string :=
  match s with
  | EmptyString => [EmptyString]
  | String c s' =>
      if Ascii.eqb c sep then EmptyString :: split sep s'
      else match split sep s' with
           | piece :: pieces => String c piece :: pieces
           | [] => [String c EmptyString]
           end
  end.

Definition parse_pair (piece : string) : string * string :=
  let '(name, value) := split_first "=" piece in
  (urldecode name, urldecode (default EmptyString value)).

Definition parse (queryString : string) : list (string * string) :=
  map parse_pair
    (List.filter (fun piece => negb (String.eqb piece EmptyString))
       (split "&" queryString)).

End URLSearchParams.

(** ** [BaseAPIClient] and [ProductsAPI] *)

Module BaseAPIClient.

(** The client, as far as URL building reads it. [request] (the
    Playwright request context) is the transport; the calls below take
    it as an argument. *)
Record t : Type := { baseURL : string }.

(** [buildURL(endpoint, params)]:
<<
  let url = `${this.baseURL}${endpoint}`;
  if (params) {
    const queryString = new URLSearchParams(params).toString();
    url += `?${queryString}`;
  }
  return url;
>>
    [params] is optional; every object, the empty one included, is
    truthy. *)
Definition buildURL (this : t) (endpoint : string) (params : option Record_.t)
    : string :=
  let url := (baseURL this ++ endpoint)%string in
  match params with
  | Some params =>
      let queryString := URLSearchParams.toString (URLSearchParams.of_record params) in
      (url ++ "?" ++ queryString)%string
  | None => url
  end.

(** [get(endpoint, options)] builds the URL and hands it to the
    transport, [this.request.get(url, { headers })]. *)
Definition get {R : Type} (request_get : string -> R) (this : t)
    (endpoint : string) (params : option Record_.t) : R :=
  let url := buildURL this endpoint params in
  request_get url.

End BaseAPIClient.

Module ProductsAPI.
Import Record_.
Local Open Scope string_scope.

(** The optional argument of [getAllProducts]; an absent field is
    [undefined]. *)
Record ListParams : Type := {
  limit : option Z;
  offset : option Z;
  sort : option string;
  order : option string
}.

(** [x || d] on an optional number: [undefined] and [0] are falsy. *)
Definition number_or (x : option Z) (d : Z) : Z :=
  match x with
  | Some z => if (z =? 0)%Z then d else z
  | None => d
  end.

(** [x || d] on an optional string: [undefined] and [''] are falsy. *)
Definition string_or (x : option string) (d : string) : string :=
  match x with
  | Some EmptyString | None => d
  | Some s => s
  end.

(** [getAllProducts(params)]: the request it sends (the two logging
    calls around it left out):
<<
  const response = await this.get('/index.php?route=api/product', {
    params: {
      limit: params?.limit || 20,
      start: params?.offset || 0,
      sort: params?.sort || 'p.sort_order',
      order: params?.order || 'asc',
    },
  });
>>
*)
Definition getAllProducts {R : Type} (request_get : string -> R)
    (this : BaseAPIClient.t) (params : option ListParams) : R :=
  BaseAPIClient.get request_get this "/index.php?route=api/product"
    (Some (literal
       [("limit", PInteger (number_or (params ≫= limit) 20));
        ("start", PInteger (number_or (params ≫= offset) 0));
        ("sort", PString (string_or (params ≫= sort) "p.sort_order"));
        ("order", PString (string_or (params ≫= order) "asc"))])).

End ProductsAPI.

(** How often a character occurs in a string. *)
Fixpoint occurrences (c : ascii) (s : string) : nat :=
  match s with
  | EmptyString => O
  | String c' s' => (if Ascii.eqb c' c then 1 else 0) + occurrences c s'
  end.

(** ** The statements of the design document

    Each definition below words one statement of the design document as
    a property of a run of the code, to be compared with what the code
    does. *)

Module Spec.
Import JS.

(** "Division by zero must never be silently produced as NaN/Infinity":
    the call on the array at [r] does not hand back a summary whose mean
    is NaN or infinite. *)
Definition no_silent_division_by_zero (r : ref) (h : heap) : Prop :=
  let m := snd (APITestUtils.createPerformanceMetrics r h) in
  PrimFloat.is_nan (APITestUtils.avg m) = false
  /\ PrimFloat.is_infinity (APITestUtils.avg m) = false.

(** "Median on an even-length sequence takes the lower-middle element
    after sorting ascending": for [2 * k] samples, the element of index
    [k - 1] of the sorted sequence. *)
Definition median_is_lower_middle (samples : list number) : Prop :=
  let m := snd (APITestUtils.createPerformanceMetrics 0%nat [samples]) in
  APITestUtils.median m
  = get (sort (fun a b => a - b)%float samples)
        (Z.of_nat (length samples) / 2 - 1).

(** "Sorting must not mutate the caller's original sequence": the array
    at [r] holds after the call what it held before. *)
Definition input_unchanged (r : ref) (h : heap) : Prop :=
  deref (fst (APITestUtils.createPerformanceMetrics r h)) r = deref h r.

(** "Propagate the last error, wrapped as RetryExhaustedError": what a
    run of [retry] throws is an instance of [RetryExhaustedError]. *)
Definition exhaustion_is_wrapped {S T : Type} (action : S -> S * settled T)
    (maxAttempts delayMs : Z) (s : S) : Prop :=
  forall s' log e,
    TestHelpers.retry action maxAttempts delayMs s = Some (s', log, Throw e) ->
    instance_of "RetryExhaustedError" e = true.


(** "Never throws for a business validation failure ... all are
    evaluated": on a body that parses, validation returns and has
    evaluated the check of every expected key. *)
Definition violations_are_data (Body : Type)
    (has_property : Body -> string -> bool)
    (expect_error : string -> Body -> string -> value)
    (response : APITestUtils.APIResponse Body) (expectedKeys : list string)
    : Prop :=
  forall body, APITestUtils.json Body response = Resolved body ->
    APITestUtils.validateJSONStructure Body has_property expect_error
      response expectedKeys
    = (expectedKeys, Return tt).

(** Two records are the same mapping of keys to values. *)
Definition same_mapping (p1 p2 : Record_.t) : Prop :=
  forall k, Record_.get k p1 = Record_.get k p2.

(** "Query parameters are serialized deterministically (stable key
    ordering)": the same mapping gives the same URL, in whatever order
    its entries were inserted. *)
Definition serialization_ignores_insertion_order (this : BaseAPIClient.t)
    (endpoint : string) (p1 p2 : Record_.t) : Prop :=
  same_mapping p1 p2 ->
  BaseAPIClient.buildURL this endpoint (Some p1)
  = BaseAPIClient.buildURL this endpoint (Some p2).

End Spec.

(** ** Runs of the polling loop *)

Module Polling.
Import JS APITestUtils.



End Polling.

(** ** [waitForCondition] under a clock that runs on its own

    [APITestUtils.waitForCondition] lets time pass only within the
    predicate and within the wait, which lasts exactly [interval]
    milliseconds. The source reads the clock twice before the first
    evaluation,
<<
const startTime = Date.now();
while (Date.now() - startTime < timeout) {
>>
    and a timer of [setTimeout] fires when the platform gets to it. The
    run below leaves both to the environment: [between_reads] gives
    the world at the first loop test from the world in which
    [startTime] was read, and [timer ms] the world in which the
    function resumes after [await new Promise(resolve =>
    setTimeout(resolve, ms))] and reads the clock for the next loop
    test. What passes between a loop test and the call of the
    predicate, and between its settling and the start of the timer, is
    part of [condition]. Nothing is assumed of the three here; the
    theorems name what they need. *)
Module RealTime.
Import JS APITestUtils.

Section waitForCondition.
Context {S : Type}.
Variable condition : world S -> world S * settled bool.
Variable between_reads : world S -> world S.
Variable timer : Z -> world S -> world S.
Variables timeout interval : Z.

Fixpoint poll (fuel : nat) (startTime : Z) (w : world S) (log : list event)
    : option (world S * list event * completion unit) :=
  if now w - startTime <? timeout then
    match fuel with
    | O => None
    | Datatypes.S fuel' =>
        match condition w with
        | (w', Rejected e) => Some (w', log ++ [Evaluated], Throw e)
        | (w', Resolved true) => Some (w', log ++ [Evaluated], Return tt)
        | (w', Resolved false) =>
            poll fuel' startTime (timer interval w')
                 (log ++ [Evaluated; Slept interval])
        end
    end
  else Some (w, log, Throw (timeout_error timeout)).

Definition waitForCondition (fuel : nat) (w : world S)
    : option (world S * list event * completion unit) :=
  let startTime := now w in
  poll fuel startTime (between_reads w) [].

End waitForCondition.

End RealTime.

(** ** JSON values *)

Module Json.

(** A parsed JSON body. The fields of an object are its own properties in
    enumeration order, each key once. *)
#[local] Unset Elimination Schemes.
Inductive t : Type :=
| JNull
| JBool (b : bool)
| JNumber (n : float)
| JString (s : string)
| JArray (items : list t)
| JObject (fields : list (string * t)).
#[local] Set Elimination Schemes.

(** Induction on a value, with the property at hand for the items of an
    array and for the values of an object. *)
Section Induction.
Variable P : t -> Prop.
Hypothesis Hnull : P JNull.
Hypothesis Hbool : forall b, P (JBool b).
Hypothesis Hnumber : forall n, P (JNumber n).
Hypothesis Hstring : forall s, P (JString s).
Hypothesis Harray : forall items, Forall P items -> P (JArray items).
Hypothesis Hobject :
  forall fields, Forall (fun f => P (snd f)) fields -> P (JObject fields).

Fixpoint induction (j : t) : P j :=
  match j with
  | JNull => Hnull
  | JBool b => Hbool b
  | JNumber n => Hnumber n
  | JString s => Hstring s
  | JArray items =>
      Harray items
        ((fix all (l : list t) : Forall P l :=
            match l with
            | [] => @List.Forall_nil _ P
            | x :: l' => @List.Forall_cons _ P x l' (induction x) (all l')
            end) items)
  | JObject fields =>
      Hobject fields
        ((fix all (l : list (string * t)) : Forall (fun f => P (snd f)) l :=
            match l with
            | [] => @List.Forall_nil _ (fun f => P (snd f))
            | f :: l' =>
                @List.Forall_cons _ (fun f => P (snd f)) f l'
                  (induction (snd f)) (all l')
            end) fields)
  end.

End Induction.

(** [Array.isArray(body)]. *)
Definition is_array (body : t) : bool :=
  match body with
  | JArray _ => true
  | _ => false
  end.

(** Does some object of the value, at any depth, have the key [k]? *)
Fixpoint mentions (k : string) (j : t) : bool :=
  match j with
  | JArray items => existsb (mentions k) items
  | JObject fields =>
      existsb (fun f => String.eqb (fst f) k || mentions k (snd f)) fields
  | _ => false
  end.

(** Does every key of every object of the value, at any depth, satisfy
    [p]? *)
Fixpoint all_keys (p : string -> bool) (j : t) : bool :=
  match j with
  | JArray items => forallb (all_keys p) items
  | JObject fields =>
      forallb (fun f => p (fst f) && all_keys p (snd f)) fields
  | _ => true
  end.

End Json.

(** ** The other helpers of [APITestUtils] *)

Module APITestUtilsMore.
Import JS.

(** An [APIResponse], as far as the rate-limit check reads it:
    [response.status()]. *)
Record Response : Type := { status : Z }.

(** [a[i]] on any array; [None] is [undefined]. *)
Definition at_index {A : Type} (a : list A) (i : Z) : option A :=
  if i <? 0 then None else a !! Z.to_nat i.

(** The error of reading a property of [undefined] or [null], as Node
    words it. *)
Definition type_error_reading (what key : string) : value :=
  VError "TypeError"
    ("Cannot read properties of " ++ what ++ " (reading '" ++ key ++ "')").

(** Sequencing: a [throw] ends the function. *)
Definition and_then {A B : Type} (c : completion A) (k : A -> completion B)
    : completion B :=
  match c with
  | Return v => k v
  | Throw e => Throw e
  end.

Section Assertions.
(** [expect] comes from the test runner. [expect_error message] is the
    assertion error that a failing [expect(received, message)...] throws,
    [None] when the call gives no custom message; what the error reports
    besides is not part of the model. *)
Variable expect_error : option string -> value.

(** [expect(received, message).toBeTruthy()] on a boolean. *)
Definition expect_toBeTruthy (received : bool) (message : option string)
    : completion unit :=
  if received then Return tt else Throw (expect_error message).

(** [expect(received, message).toBe(expected)] on integers. *)
Definition expect_toBe (received expected : Z) (message : option string)
    : completion unit :=
  if received =? expected then Return tt else Throw (expect_error message).

(** [expect(received, message).toBeGreaterThanOrEqual(expected)]. *)
Definition expect_toBeGreaterThanOrEqual (received expected : Z)
    (message : option string) : completion unit :=
  if expected <=? received then Return tt else Throw (expect_error message).

(** [expect(received, message).toBeLessThanOrEqual(expected)]. *)
Definition expect_toBeLessThanOrEqual (received expected : Z)
    (message : option string) : completion unit :=
  if received <=? expected then Return tt else Throw (expect_error message).

(** [validateArrayResponse(response, minLength, maxLength)]:
<<
const body = await response.json();
expect(Array.isArray(body), 'Response should be an array').toBeTruthy();
if (minLength !== undefined) {
  expect(body.length, `Array length should be at least ${minLength}`).toBeGreaterThanOrEqual(minLength);
}
if (maxLength !== undefined) {
  expect(body.length, `Array length should be at most ${maxLength}`).toBeLessThanOrEqual(maxLength);
}
>>
    The bounds are integers; an absent one is [undefined]. [body.length]
    is read only after the first assertion has passed, on an array. *)
Definition validateArrayResponse (response : settled Json.t)
    (minLength maxLength : option Z) : completion unit :=
  match response with
  | Rejected e => Throw e
  | Resolved body =>
      and_then
        (expect_toBeTruthy (Json.is_array body)
           (Some "Response should be an array"%string))
        (fun _ =>
           let body_length :=
             match body with
             | Json.JArray items => Z.of_nat (length items)
             | _ => 0
             end in
           and_then
             (match minLength with
              | Some minLength =>
                  expect_toBeGreaterThanOrEqual body_length minLength
                    (Some ("Array length should be at least "
                           ++ string_of_Z minLength)%string)
              | None => Return tt
              end)
             (fun _ =>
                match maxLength with
                | Some maxLength =>
                    expect_toBeLessThanOrEqual body_length maxLength
                      (Some ("Array length should be at most "
                             ++ string_of_Z maxLength)%string)
                | None => Return tt
                end))
  end.

Section validateRateLimiting.
Context {S : Type}.

(** [apiCall: () => Promise<APIResponse>], run against the state it acts
    on. *)
Variable apiCall : S -> S * settled Response.
Variables maxRequests expectedStatus : Z.

(** The loop
<<
for (let i = 0; i < maxRequests + 1; i++) {
  responses.push(await apiCall());
}
>>
    from the value of [i] on; [calls] counts the calls made. *)
Fixpoint request_loop (fuel : nat) (i : Z) (responses : list Response)
    (s : S) (calls : nat) : option (S * nat * completion (list Response)) :=
  if i <? maxRequests + 1 then
    match fuel with
    | O => None
    | Datatypes.S fuel' =>
        match apiCall s with
        | (s', Resolved response) =>
            request_loop fuel' (i + 1) (responses ++ [response]) s'
              (Datatypes.S calls)
        | (s', Rejected e) => Some (s', Datatypes.S calls, Throw e)
        end
    end
  else Some (s, calls, Return responses).

(** [validateRateLimiting(apiCall, maxRequests, expectedStatus)]; the
    last line is
    [expect(responses[responses.length - 1].status()).toBe(expectedStatus)].
    The result gives the state, the number of calls made and how the
    function ended. *)
Definition validateRateLimiting (s : S) : option (S * nat * completion unit) :=
  match request_loop (Z.to_nat (maxRequests + 1)) 0 [] s O with
  | Some (s', calls, outcome) =>
      Some (s', calls,
            and_then outcome
              (fun responses =>
                 match at_index responses (Z.of_nat (length responses) - 1) with
                 | Some response =>
                     expect_toBe (status response) expectedStatus None
                 | None => Throw (type_error_reading "undefined" "status")
                 end))
  | None => None
  end.

End validateRateLimiting.

End Assertions.

Definition default_expectedStatus : Z := 429.

(** *** Walking a value along a path *)

Section Paths.
(** The values of JavaScript: [undefined], [null], and the others, of
    which only the property read is used. [get w key] is [w[key]]. *)
Variable W : Type.

Inductive jsval : Type :=
| Undefined
| Null
| Val (w : W).

Variable get : W -> string -> jsval.

(** [current?.[key]]. *)
Definition optional_get (current : jsval) (key : string) : jsval :=
  match current with
  | Val w => get w key
  | Undefined | Null => Undefined
  end.

(** [extractNestedValue(obj, path)]:
    [path.split('.').reduce((current, key) => current?.[key], obj)]. *)
Definition extractNestedValue (obj : jsval) (path : string) : jsval :=
  reduce optional_get obj (URLSearchParams.split "." path).

End Paths.

Arguments Undefined {W}.
Arguments Null {W}.
Arguments Val {W} w.

(** *** Filtering keys out of a value *)

(** [keysToIgnore.includes(key)]. *)
Definition includes (keys : list string) (key : string) : bool :=
  existsb (String.eqb key) keys.

(** [filterObject(obj, keysToIgnore)]:
<<
if (typeof obj !== 'object' || obj === null) return obj;
if (Array.isArray(obj)) {
  return obj.map(item => this.filterObject(item, keysToIgnore));
}
const filtered: any = {};
for (const [key, value] of Object.entries(obj)) {
  if (!keysToIgnore.includes(key)) {
    filtered[key] = this.filterObject(value, keysToIgnore);
  }
}
return filtered;
>>
    The properties are assigned in enumeration order, so the result
    enumerates the kept ones in the same order. The assignment
    [filtered['__proto__'] = v] does not create a property: it reaches
    the [__proto__] setter of [Object.prototype], so a key of that name
    is never among the own properties of the result. *)
Definition filter_fields (keysToIgnore : list string) (recurse : Json.t -> Json.t)
    : list (string * Json.t) -> list (string * Json.t) :=
  fix loop (fields : list (string * Json.t)) :=
    match fields with
    | [] => []
    | (key, value) :: rest =>
        if includes keysToIgnore key || String.eqb key "__proto__"
        then loop rest
        else (key, recurse value) :: loop rest
    end.

Fixpoint filterObject (obj : Json.t) (keysToIgnore : list string) : Json.t :=
  match obj with
  | Json.JArray items =>
      Json.JArray (map (fun item => filterObject item keysToIgnore) items)
  | Json.JObject fields =>
      Json.JObject
        (filter_fields keysToIgnore
           (fun value => filterObject value keysToIgnore) fields)
  | _ => obj
  end.

(** The key is neither ignored nor [__proto__]. *)
Definition kept (keysToIgnore : list string) (key : string) : bool :=
  negb (includes keysToIgnore key || String.eqb key "__proto__").

End APITestUtilsMore.

(** ** [BaseAPIClient.extractValue] *)

Module BaseAPIClientMore.
Import JS APITestUtilsMore.

Section extractValue.
Variable W : Type.
Variable get : W -> string -> jsval W.

(** The loop of [extractValue]:
<<
for (const key of keys) {
  value = value[key];
  if (value === undefined) break;
}
return value;
>>
    Reading a property of [null] or [undefined] throws a TypeError. *)
Fixpoint extract_loop (value : jsval W) (keys : list string)
    : completion (jsval W) :=
  match keys with
  | [] => Return value
  | key :: rest =>
      match value with
      | Val w =>
          match get w key with
          | Undefined => Return Undefined
          | value' => extract_loop value' rest
          end
      | Null => Throw (type_error_reading "null" key)
      | Undefined => Throw (type_error_reading "undefined" key)
      end
  end.

(** [extractValue(response, path)]: [response.json()] resolves with the
    body or rejects. *)
Definition extractValue (response : settled (jsval W)) (path : string)
    : completion (jsval W) :=
  match response with
  | Rejected e => Throw e
  | Resolved body =>
      let keys := URLSearchParams.split "." path in
      extract_loop body keys
  end.

End extractValue.

End BaseAPIClientMore.

(** ** Regular-expression helpers: [extractSessionToken], [extractNumber] *)

Module Text.

(** The longest prefix of [s] whose characters satisfy [p], and what
    follows it. *)
Fixpoint take_while (p : ascii -> bool) (s : string) : string :=
  match s with
  | EmptyString => EmptyString
  | String c s' => if p c then String c (take_while p s') else EmptyString
  end.

Fixpoint drop_while (p : ascii -> bool) (s : string) : string :=
  match s with
  | EmptyString => EmptyString
  | String c s' => if p c then drop_while p s' else s
  end.

(** [s] without the prefix [prefix], when it starts with it. *)
Fixpoint strip_prefix (prefix s : string) : option string :=
  match prefix with
  | EmptyString => Some s
  | String c prefix' =>
      match s with
      | String d s' => if Ascii.eqb c d then strip_prefix prefix' s' else None
      | EmptyString => None
      end
  end.

(** Do all characters of [s] satisfy [p]? *)
Fixpoint all_chars (p : ascii -> bool) (s : string) : bool :=
  match s with
  | EmptyString => true
  | String c s' => p c && all_chars p s'
  end.

(** [\d]: an ASCII digit. *)
Definition is_digit (c : ascii) : bool :=
  ((48 <=? nat_of_ascii c) && (nat_of_ascii c <=? 57))%nat.

(** [[\d,]]. *)
Definition is_digit_or_comma (c : ascii) : bool :=
  is_digit c || Ascii.eqb c ",".

(** [[^;]]. *)
Definition not_semicolon (c : ascii) : bool := negb (Ascii.eqb c ";").

End Text.

Module AuthAPI.
Import Text.

(** [cookies.match(/OCSESSID=([^;]+)/)], the first capture group of the
    leftmost match: at the first position where [OCSESSID=] is followed
    by a character other than [;], the longest run of such characters. *)
Fixpoint match_OCSESSID (cookies : string) : option string :=
  let here :=
    match strip_prefix "OCSESSID=" cookies with
    | Some rest =>
        match take_while not_semicolon rest with
        | EmptyString => None
        | token => Some token
        end
    | None => None
    end in
  match here with
  | Some token => Some token
  | None =>
      match cookies with
      | EmptyString => None
      | String _ cookies' => match_OCSESSID cookies'
      end
  end.

(** [extractSessionToken(response)]:
<<
const cookies = response.headers()['set-cookie'];
if (cookies) {
  const sessionMatch = cookies.match(/OCSESSID=([^;]+)/);
  return sessionMatch ? sessionMatch[1] : null;
}
return null;
>>
    The argument is the [set-cookie] header, [None] when the response
    has none; the result [None] is [null]. *)
Definition extractSessionToken (cookies : option string) : option string :=
  match cookies with
  | Some EmptyString | None => None
  | Some cookies => match_OCSESSID cookies
  end.

End AuthAPI.

Module TestHelpersMore.
Import Text.

(** The match of [/[\d,]+\.?\d*/] that starts at the head of [s], a digit
    or comma: the longest run of digits and commas, a dot if one follows,
    and the longest run of digits after it. *)
Definition number_at (s : string) : string :=
  let head := take_while is_digit_or_comma s in
  match drop_while is_digit_or_comma s with
  | String c rest =>
      if Ascii.eqb c "." then (head ++ "." ++ take_while is_digit rest)%string
      else head
  | EmptyString => head
  end.

(** [text.match(/[\d,]+\.?\d*/)]: the leftmost match, [None] when there
    is none. *)
Fixpoint match_number (text : string) : option string :=
  match text with
  | EmptyString => None
  | String c text' =>
      if is_digit_or_comma c then Some (number_at text) else match_number text'
  end.

(** [s.replace(/,/g, '')]. *)
Fixpoint remove_commas (s : string) : string :=
  match s with
  | EmptyString => EmptyString
  | String c s' => if Ascii.eqb c "," then remove_commas s' else String c (remove_commas s')
  end.

Section extractNumber.
(** [parseFloat] is the language's. *)
Variable parseFloat : string -> float.

(** [extractNumber(text)]:
<<
const match = text.match(/[\d,]+\.?\d*/);
if (match) {
  return parseFloat(match[0].replace(/,/g, ''));
}
return 0;
>>
*)
Definition extractNumber (text : string) : float :=
  match match_number text with
  | Some m => parseFloat (remove_commas m)
  | None => 0%float
  end.

End extractNumber.

End TestHelpersMore.

(** ** The other requests of the clients *)

Module Clients.
Import Record_.
Local Open Scope string_scope.

(** The optional argument of [searchProducts]. *)
Record SearchParams : Type := {
  search_limit : option Z;
  categoryId : option Z
}.

(** [ProductsAPI.getProductById(productId)]: [this.get('/index.php?route=api/product',
    { params: { product_id: productId } })]. *)
Definition getProductById {R : Type} (request_get : string -> R)
    (this : BaseAPIClient.t) (productId : pvalue) : R :=
  BaseAPIClient.get request_get this "/index.php?route=api/product"
    (Some (literal [("product_id", productId)])).

(** [ProductsAPI.searchProducts(query, params)]:
<<
this.get('/index.php?route=product/search', {
  params: {
    search: query,
    limit: params?.limit || 20,
    category_id: params?.categoryId || 0,
  },
});
>>
*)
Definition searchProducts {R : Type} (request_get : string -> R)
    (this : BaseAPIClient.t) (query : string) (params : option SearchParams) : R :=
  BaseAPIClient.get request_get this "/index.php?route=product/search"
    (Some (literal
       [("search", PString query);
        ("limit", PInteger (ProductsAPI.number_or (params ≫= search_limit) 20));
        ("category_id", PInteger (ProductsAPI.number_or (params ≫= categoryId) 0))])).

(** [CartAPI.removeFromCart(cartItemId)]:
    [this.get('/index.php?route=checkout/cart/remove', { params: { key: cartItemId }, headers })]. *)
Definition removeFromCart {R : Type} (request_get : string -> R)
    (this : BaseAPIClient.t) (cartItemId : string) : R :=
  BaseAPIClient.get request_get this "/index.php?route=checkout/cart/remove"
    (Some (literal [("key", PString cartItemId)])).

(** [CartAPI.getCart()]: [this.get('/index.php?route=checkout/cart', { headers })],
    without params. *)
Definition getCart {R : Type} (request_get : string -> R)
    (this : BaseAPIClient.t) : R :=
  BaseAPIClient.get request_get this "/index.php?route=checkout/cart" None.

(** [AuthAPI.verifyEmail(token)]:
    [this.get('/index.php?route=account/success', { params: { token } })]. *)
Definition verifyEmail {R : Type} (request_get : string -> R)
    (this : BaseAPIClient.t) (token : string) : R :=
  BaseAPIClient.get request_get this "/index.php?route=account/success"
    (Some (literal [("token", PString token)])).

(** The query of a URL: what follows its first [?]. (The URLs built here
    have no fragment.) *)
Definition query_of (url : string) : option string :=
  snd (URLSearchParams.split_first "?" url).

(** The characters of a route name: letters, digits, [*], [-], [.], [_]
    and [/]. *)
Definition route_char (c : ascii) : bool :=
  URLSearchParams.unreserved c || Ascii.eqb c "/".

(** The characters of a serialized query: the unreserved ones and the
    [+], [%], [=] and [&] of the encoding. *)
Definition query_char (c : ascii) : bool :=
  URLSearchParams.unreserved c
  || Ascii.eqb c "+" || Ascii.eqb c "%" || Ascii.eqb c "=" || Ascii.eqb c "&".

(** The characters that decoding leaves as they are: all but [+] and
    [%]. *)
Definition literal_char (c : ascii) : bool :=
  negb (Ascii.eqb c "+" || Ascii.eqb c "%").

End Clients.

(** ** Sample callbacks and responses *)

Module Samples.
Import JS.

(** An action that counts its invocations in the state, rejects with
    [new Error("boom")] on the first [k] of them and resolves with
    ["ok"] afterwards. *)
Definition flaky (k : nat) (s : nat) : nat * settled string :=
  (Datatypes.S s,
   if (s <? k)%nat then Rejected (VError "Error" "boom") else Resolved "ok"%string).

(** An action that always rejects with [new Error("boom")]. *)
Definition always_boom (s : nat) : nat * settled string :=
  (Datatypes.S s, Rejected (VError "Error" "boom")).


(** A predicate that is never satisfied, taking no time. *)
Definition never_condition (w : APITestUtils.world unit)
    : APITestUtils.world unit * settled bool :=
  (w, Resolved false).

(** A parsed body given by the names of its properties, the matcher
    that looks a name up, and an assertion error that carries the
    custom message. *)
Definition has_name (body : list string) (key : string) : bool :=
  existsb (String.eqb key) body.

Definition assertion_error (message : string) (body : list string)
    (key : string) : value :=
  VError "Error" message.

(** A response whose body is an object without the properties [id] and
    [name]. *)
Definition response_without_id_name : APITestUtils.APIResponse (list string) :=
  {| APITestUtils.json := Resolved ["price"%string] |}.

(** The same two parameters, written in the two orders. *)
Definition limit_then_start : Record_.t :=
  Record_.literal [("limit"%string, Record_.PInteger 20);
                   ("start"%string, Record_.PInteger 0)].

Definition start_then_limit : Record_.t :=
  Record_.literal [("start"%string, Record_.PInteger 0);
                   ("limit"%string, Record_.PInteger 20)].


(** A predicate that holds, taking no time. *)
Definition always_true (w : APITestUtils.world unit)
    : APITestUtils.world unit * settled bool :=
  (w, Resolved true).

(** One millisecond passes, and nothing else happens. *)
Definition one_tick (w : APITestUtils.world unit) : APITestUtils.world unit :=
  APITestUtils.World (APITestUtils.now w + 1) (APITestUtils.state w).

(** A timer that waits at least one millisecond and fires two
    milliseconds late. *)
Definition late_timer (ms : Z) (w : APITestUtils.world unit)
    : APITestUtils.world unit :=
  APITestUtils.World (APITestUtils.now w + Z.max 1 ms + 2) (APITestUtils.state w).

(** A stand-in for [parseFloat] that tells its arguments apart by their
    length. *)
Definition length_of (s : string) : float :=
  number_of_nat (String.length s).

(** The assertion error of the samples: an [Error] with the custom
    message, if any. *)
Definition assertion_failed (message : option string) : value :=
  VError "Error" (default "expect failed"%string message).

(** A server that counts the calls in the state and answers 200 to the
    first [k] of them and 429 afterwards. *)
Definition limited_after (k : nat) (s : nat)
    : nat * settled APITestUtilsMore.Response :=
  (Datatypes.S s,
   Resolved {| APITestUtilsMore.status := if (s <? k)%nat then 200 else 429 |}).

(** A server that answers 200 to the first [k] calls and is unreachable
    afterwards. *)
Definition down_after (k : nat) (s : nat)
    : nat * settled APITestUtilsMore.Response :=
  (Datatypes.S s,
   if (s <? k)%nat then Resolved {| APITestUtilsMore.status := 200 |}
   else Rejected (VError "Error" "socket hang up")).

(** A body with nested objects and an array. *)
Definition order_body : Json.t :=
  Json.JObject
    [("id"%string, Json.JNumber 7%float);
     ("items"%string,
      Json.JArray
        [Json.JObject [("id"%string, Json.JNumber 1%float);
                       ("name"%string, Json.JString "MacBook")];
         Json.JObject [("id"%string, Json.JNumber 2%float);
                       ("createdAt"%string, Json.JString "2026-01-01")]]);
     ("total"%string, Json.JString "$602.00")].

(** The property read on a parsed body, as far as own properties of
    objects go: [null] for a JSON null, [undefined] for an absent key or a
    value that is not an object. *)
Definition own_property (w : Json.t) (key : string)
    : APITestUtilsMore.jsval Json.t :=
  match w with
  | Json.JObject fields =>
      match List.find (fun f => String.eqb (fst f) key) fields with
      | Some (_, Json.JNull) => APITestUtilsMore.Null
      | Some (_, v) => APITestUtilsMore.Val v
      | None => APITestUtilsMore.Undefined
      end
  | _ => APITestUtilsMore.Undefined
  end.

(** The client of the demo store. *)
Definition demo_client : BaseAPIClient.t :=
  {| BaseAPIClient.baseURL := "https://demo.opencart.com" |}.

End Samples.

(** ** Sorting *)

Section Sorting.
Context {A : Type}.
Variable comparefn : A -> A -> JS.number.

Lemma insert_sorted_perm (x : A) (l : list A) :
  JS.insert_sorted comparefn x l ≡ₚ x :: l.
Proof.
  induction l as [|y l IH]; simpl; [done|].
  destruct (0 <? comparefn x y)%float; [|done].
  rewrite IH. apply perm_swap.
Qed.

(** The sort rearranges: it neither drops nor invents an element. *)
Lemma sort_perm (l : list A) : JS.sort comparefn l ≡ₚ l.
Proof.
  induction l as [|x l IH]; simpl; [done|].
  by rewrite insert_sorted_perm, IH.
Qed.

Lemma sort_length (l : list A) : length (JS.sort comparefn l) = length l.
Proof. apply Permutation_length, sort_perm. Qed.

Lemma insert_sorted_sorted (x : A) (l : list A) :
  (forall y, y ∈ l ->
     (0 <? comparefn x y)%float = true -> (0 <? comparefn y x)%float = false) ->
  Sorted (JS.not_after comparefn) l ->
  Sorted (JS.not_after comparefn) (JS.insert_sorted comparefn x l).
Proof.
  induction l as [|y l IH]; intros Hx Hl; simpl.
  - by repeat constructor.
  - destruct (0 <? comparefn x y)%float eqn:Hxy.
    + apply Sorted_inv in Hl as [Hl Hy].
      constructor.
      * apply IH; [|done]. intros z Hz. apply Hx. by right.
      * destruct l as [|z l]; simpl.
        -- constructor. apply Hx; [left|done].
        -- destruct (0 <? comparefn x z)%float.
           ++ constructor. by apply HdRel_inv in Hy.
           ++ constructor. apply Hx; [left|done].
    + constructor; [done|]. by constructor.
Qed.

(** With such a comparator the sorted array is in order: no element has
    to follow its successor. *)
Lemma sort_sorted (l : list A) :
  JS.asymmetric_on comparefn l ->
  Sorted (JS.not_after comparefn) (JS.sort comparefn l).
Proof.
  induction l as [|x l IH]; intros Hl; simpl; [constructor|].
  apply insert_sorted_sorted.
  - intros y Hy. rewrite sort_perm in Hy. apply Hl; [left|by right].
  - apply IH. intros y z Hy Hz. apply Hl; by right.
Qed.

(** An array in order is left as it is by the sort. *)
Lemma sort_sorted_id (l : list A) :
  Sorted (JS.not_after comparefn) l -> JS.sort comparefn l = l.
Proof.
  induction 1 as [|x l Hl IH Hx]; simpl; [done|].
  rewrite IH. destruct Hx as [|y l' Hxy]; simpl; [done|].
  unfold JS.not_after in Hxy. by rewrite Hxy.
Qed.

End Sorting.

(** ** The comparator [(a, b) => a - b] *)

Section Subtraction.
Import JS.

Lemma SFltb_zero (z : spec_float) : SFltb (S754_zero false) z = SFpositive z.
Proof. by destruct z as [[]|[]| |[] ? ?]. Qed.

(** Rounding keeps the sign it is given. *)
Lemma binary_round_aux_negative (mx ex : Z) (lx : location) :
  SFpositive (binary_round_aux prec emax true mx ex lx) = false.
Proof.
  unfold binary_round_aux.
  destruct (shr_fexp _ _ _ _ _) as [mrs' e'].
  destruct (shr_fexp _ _ _ _ _) as [mrs'' e''].
  destruct (shr_m mrs''); [done| |done].
  by destruct (Z.leb _ _).
Qed.

Lemma binary_normalize_positive (m e : Z) :
  SFpositive (binary_normalize prec emax m e false) = true -> (0 < m)%Z.
Proof.
  destruct m as [|m|m]; simpl; [done|lia|].
  unfold binary_round. destruct (shl_align _ _ _) as [mz ez].
  by rewrite binary_round_aux_negative.
Qed.

Lemma binary_normalize_negative (m e : Z) :
  (m < 0)%Z -> SFpositive (binary_normalize prec emax m e false) = false.
Proof.
  destruct m as [|m|m]; try lia. intros _. simpl.
  unfold binary_round. destruct (shl_align _ _ _) as [mz ez].
  apply binary_round_aux_negative.
Qed.

Lemma SFsub_asymmetric (x y : spec_float) :
  SFpositive (SF64sub x y) = true -> SFpositive (SF64sub y x) = false.
Proof.
  unfold SF64sub.
  destruct x as [sx|sx| |sx mx ex], y as [sy|sy| |sy my ey];
    try done;
    try (by destruct sx, sy); try (by destruct sx); try (by destruct sy).
  unfold SFsub. intros H%binary_normalize_positive.
  rewrite (Z.min_comm ey ex).
  apply binary_normalize_negative. lia.
Qed.

(** When [a - b] is positive, [b - a] is not: the comparator never asks
    for two elements to be put each after the other, whatever the
    numbers (NaN and the infinities included). *)
Lemma subtraction_asymmetric (a b : JS.number) :
  (0 <? a - b)%float = true -> (0 <? b - a)%float = false.
Proof.
  rewrite !FloatAxioms.ltb_spec, !FloatAxioms.sub_spec.
  change (Prim2SF 0) with (S754_zero false).
  rewrite !SFltb_zero. apply SFsub_asymmetric.
Qed.

(** The array that [sort((a, b) => a - b)] leaves is in order. *)
Lemma sort_numbers_sorted (l : list JS.number) :
  Sorted (JS.not_after (fun a b => a - b)%float)
         (JS.sort (fun a b => a - b)%float l).
Proof. apply sort_sorted. intros x y _ _. apply subtraction_asymmetric. Qed.

(** *** The order of the numbers

    The finite numbers are the integers [SFscaled] in units of
    [2^emin]; comparison and the sign of a difference are read there. *)

Lemma digits2_pos_bounds (m : positive) :
  2 ^ (Zpos (digits2_pos m) - 1) <= Zpos m < 2 ^ Zpos (digits2_pos m).
Proof.
  induction m as [m IH|m IH|]; simpl digits2_pos.
  - rewrite Pos2Z.inj_succ.
    replace (Z.succ (Z.pos (digits2_pos m)) - 1) with (Z.succ (Z.pos (digits2_pos m) - 1)) by lia.
    rewrite !Z.pow_succ_r by lia. lia.
  - rewrite Pos2Z.inj_succ.
    replace (Z.succ (Z.pos (digits2_pos m)) - 1) with (Z.succ (Z.pos (digits2_pos m) - 1)) by lia.
    rewrite !Z.pow_succ_r by lia. lia.
  - simpl. lia.
Qed.

(** What validity says of a finite number. *)
Lemma bounded_facts (m : positive) (e : Z) :
  bounded prec emax m e = true ->
  emin <= e <= emax - prec
  /\ Zpos (digits2_pos m) <= prec
  /\ (emin < e -> Zpos (digits2_pos m) = prec).
Proof.
  unfold bounded, canonical_mantissa, fexp.
  intros [H1 H2]%andb_true_iff.
  apply Z.eqb_eq in H1. apply Z.leb_le in H2.
  change (SpecFloat.emin prec emax) with (-1074) in *.
  change prec with 53 in *. change emax with 1024 in *.
  lia.
Qed.

Lemma pow2_pos (k : Z) : 0 <= k -> 0 < 2 ^ k.
Proof. intros. apply Z.pow_pos_nonneg; lia. Qed.

Lemma scaled_finite_lt (m1 m2 : positive) (e1 e2 : Z) :
  bounded prec emax m1 e1 = true -> bounded prec emax m2 e2 = true ->
  e1 < e2 ->
  Zpos m1 * 2 ^ (e1 - emin) < Zpos m2 * 2 ^ (e2 - emin).
Proof.
  intros (He1 & Hd1 & _)%bounded_facts (He2 & _ & Hd2)%bounded_facts Hlt.
  specialize (Hd2 ltac:(lia)).
  pose proof (digits2_pos_bounds m1) as [_ Hm1].
  pose proof (digits2_pos_bounds m2) as [Hm2 _].
  rewrite Hd2 in Hm2.
  assert (Hp : 2 ^ Zpos (digits2_pos m1) <= 2 ^ prec)
    by (apply Z.pow_le_mono_r; lia).
  set (k := e1 - emin) in *.
  assert (Hk : 0 <= k) by (unfold k; lia).
  replace (e2 - emin) with (k + (e2 - e1)) by (unfold k; lia).
  rewrite Z.pow_add_r by lia.
  assert (H2 : 2 ^ 1 <= 2 ^ (e2 - e1)) by (apply Z.pow_le_mono_r; lia).
  change (2 ^ 1) with 2 in H2.
  replace prec with (prec - 1 + 1) in Hp by lia.
  rewrite Z.pow_add_r in Hp by (change prec with 53; lia).
  change (2 ^ 1) with 2 in Hp.
  pose proof (pow2_pos k Hk) as HA.
  assert (HQ : 0 < 2 ^ (prec - 1)) by (apply pow2_pos; change prec with 53; lia).
  generalize dependent (2 ^ (prec - 1)). generalize dependent (2 ^ (e2 - e1)).
  generalize dependent (2 ^ k). generalize dependent (2 ^ Zpos (digits2_pos m1)).
  intros D1 HD1 A HA T HT Q HQ2 HD1Q HQ.
  apply Z.lt_le_trans with (2 * Q * A); [nia|].
  apply Z.le_trans with (Q * (A * T)); nia.
Qed.

Lemma scaled_finite_bound (m : positive) (e : Z) :
  bounded prec emax m e = true ->
  0 < Zpos m * 2 ^ (e - emin) < 2 ^ (emax - emin).
Proof.
  intros (He & Hd & _)%bounded_facts.
  pose proof (digits2_pos_bounds m) as [_ Hm].
  assert (Hp : 2 ^ Zpos (digits2_pos m) <= 2 ^ prec)
    by (apply Z.pow_le_mono_r; lia).
  assert (Hk : 0 <= e - emin) by lia.
  pose proof (pow2_pos _ Hk).
  split; [lia|].
  assert (2 ^ (e - emin) <= 2 ^ (emax - prec - emin))
    by (apply Z.pow_le_mono_r; lia).
  replace (emax - emin) with (prec + (emax - prec - emin)) by lia.
  rewrite Z.pow_add_r by (change prec with 53; change emax with 1024;
    change (SpecFloat.emin 53 1024) with (-1074); lia).
  assert (HP : 0 < 2 ^ prec) by (apply pow2_pos; change prec with 53; lia).
  generalize dependent (2 ^ (emax - prec - emin)).
  generalize dependent (2 ^ (e - emin)). generalize dependent (2 ^ prec).
  generalize dependent (2 ^ Zpos (digits2_pos m)).
  intros. apply Z.lt_le_trans with (z0 * z1); nia.
Qed.

Lemma compare_mul_pos (n m p : Z) : 0 < p -> (n * p ?= m * p) = (n ?= m).
Proof.
  intros Hp. destruct (Z.compare_spec n m) as [->|H|H].
  - apply Z.compare_refl.
  - apply Z.compare_lt_iff. nia.
  - apply Z.compare_gt_iff. nia.
Qed.

Lemma SFcompare_scaled (x y : spec_float) :
  valid_binary x = true -> valid_binary y = true ->
  x <> S754_nan -> y <> S754_nan ->
  SFcompare x y = Some (SFscaled x ?= SFscaled y).
Proof.
  intros Vx Vy Nx Ny.
  assert (Hinf : 0 < 2 ^ (emax - emin)) by (by apply pow2_pos).
  destruct x as [sx|sx| |sx mx ex], y as [sy|sy| |sy my ey]; try done;
    simpl in Vx, Vy; unfold SFcompare, SFscaled;
    try pose proof (scaled_finite_bound mx ex Vx);
    try pose proof (scaled_finite_bound my ey Vy);
    f_equal; symmetry;
    try (by destruct sx); try (by destruct sy);
    try (destruct sx; simpl cond_Zopp;
         first [apply Z.compare_lt_iff; lia | apply Z.compare_gt_iff; lia]);
    try (destruct sy; simpl cond_Zopp;
         first [apply Z.compare_lt_iff; lia | apply Z.compare_gt_iff; lia]).
  - destruct sx, sy; simpl cond_Zopp;
      first [apply Z.compare_refl | apply Z.compare_lt_iff; lia
            | apply Z.compare_gt_iff; lia].
  - destruct sx, sy; simpl cond_Zopp;
      first [apply Z.compare_lt_iff; lia | apply Z.compare_gt_iff; lia].
  - destruct sx, sy; simpl cond_Zopp;
      first [apply Z.compare_lt_iff; lia | apply Z.compare_gt_iff; lia].
  - destruct sx, sy; simpl cond_Zopp.
    + rewrite Z.compare_opp.
      destruct (Z.compare_spec ex ey) as [->|Hlt|Hgt].
      * rewrite compare_mul_pos by lia.
        apply (Pos.compare_antisym mx my).
      * apply Z.compare_gt_iff. by apply scaled_finite_lt.
      * apply Z.compare_lt_iff. by apply scaled_finite_lt.
    + apply Z.compare_lt_iff. lia.
    + apply Z.compare_gt_iff. lia.
    + destruct (Z.compare_spec ex ey) as [->|Hlt|Hgt].
      * by rewrite compare_mul_pos by lia.
      * apply Z.compare_lt_iff. by apply scaled_finite_lt.
      * apply Z.compare_gt_iff. by apply scaled_finite_lt.
Qed.

(** Shifting right: [shr_1] halves the mantissa. *)
Lemma shr_1_m (mrs : shr_record) :
  0 <= shr_m mrs -> shr_m (shr_1 mrs) = shr_m mrs / 2.
Proof.
  destruct mrs as [m r s]. simpl. intros Hm.
  destruct m as [|[p|p|]|p]; simpl shr_m; try lia; try reflexivity.
  - apply (Z.div_unique (Zpos p~1) 2 (Zpos p) 1); lia.
  - apply (Z.div_unique (Zpos p~0) 2 (Zpos p) 0); lia.
Qed.

Lemma iter_shr_1_m (p : positive) (mrs : shr_record) :
  0 <= shr_m mrs ->
  shr_m (SpecFloat.iter_pos shr_1 p mrs) = shr_m mrs / 2 ^ Zpos p.
Proof.
  revert mrs. induction p as [p IH|p IH|]; intros mrs Hm; simpl SpecFloat.iter_pos.
  - assert (H1 : 0 <= shr_m (shr_1 mrs))
      by (rewrite shr_1_m by done; apply Z.div_pos; lia).
    assert (H2 : 0 <= shr_m (SpecFloat.iter_pos shr_1 p (shr_1 mrs)))
      by (rewrite IH by done; apply Z.div_pos; [done|by apply pow2_pos]).
    rewrite IH, IH, shr_1_m by done.
    rewrite !Z.div_div by (pose proof (pow2_pos (Zpos p)); lia).
    f_equal. rewrite Pos2Z.inj_xI.
    replace (2 * Z.pos p + 1) with (1 + Z.pos p + Z.pos p) by lia.
    rewrite !Z.pow_add_r by lia. change (2 ^ 1) with 2. lia.
  - assert (H2 : 0 <= shr_m (SpecFloat.iter_pos shr_1 p mrs))
      by (rewrite IH by done; apply Z.div_pos; [done|by apply pow2_pos]).
    rewrite IH, IH by done.
    rewrite !Z.div_div by (pose proof (pow2_pos (Zpos p)); lia).
    f_equal. rewrite <- Z.pow_add_r by lia. f_equal. lia.
  - rewrite shr_1_m by done. reflexivity.
Qed.

Lemma shr_record_of_loc_m (m : Z) (l : location) :
  shr_m (shr_record_of_loc m l) = m.
Proof. by destruct l as [|[]]. Qed.

(** Rounding to the format does not take a positive mantissa whose
    exponent is within range to zero. *)
Lemma shr_fexp_positive (m e : Z) (l : location) :
  0 < m -> emin <= e ->
  0 < shr_m (fst (shr_fexp prec emax m e l))
  /\ emin <= snd (shr_fexp prec emax m e l).
Proof.
  intros Hm He. unfold shr_fexp, shr.
  destruct m as [|m|m]; try lia. simpl Zdigits2.
  destruct (fexp prec emax (Z.pos (digits2_pos m) + e) - e) as [|p|p] eqn:Hn;
    simpl fst; simpl snd; rewrite ?shr_record_of_loc_m; try (split; lia).
  unfold fexp in Hn.
  assert (Hp : Zpos p = Zpos (digits2_pos m) - prec) by lia.
  split; [|lia].
  rewrite iter_shr_1_m by (rewrite shr_record_of_loc_m; lia).
  rewrite shr_record_of_loc_m, Hp.
  pose proof (digits2_pos_bounds m) as [Hlow _].
  apply Z.div_str_pos. split; [apply pow2_pos; lia|].
  apply Z.le_trans with (2 ^ (Zpos (digits2_pos m) - 1)); [|done].
  apply Z.pow_le_mono_r; [lia|]. change prec with 53. lia.
Qed.

Lemma round_nearest_even_positive (m : Z) (l : location) :
  0 < m -> 0 < round_nearest_even m l.
Proof.
  intros Hm. destruct l as [|[]]; simpl; try done; [|lia].
  destruct (Z.even m); lia.
Qed.

Lemma binary_round_aux_positive (m e : Z) (l : location) :
  0 < m -> emin <= e ->
  SFpositive (binary_round_aux prec emax false m e l) = true.
Proof.
  intros Hm He. unfold binary_round_aux.
  pose proof (shr_fexp_positive m e l Hm He) as [H1 H1'].
  destruct (shr_fexp prec emax m e l) as [mrs' e']. simpl in H1, H1'.
  pose proof (shr_fexp_positive _ e' loc_Exact
                (round_nearest_even_positive _ (loc_of_shr_record mrs') H1) H1')
    as [H2 _].
  destruct (shr_fexp prec emax _ e' loc_Exact) as [mrs'' e'']. simpl in H2.
  destruct (shr_m mrs'') as [|m''|m'']; try lia.
  by destruct (e'' <=? emax - prec).
Qed.

Lemma iter_xO_value (d m : positive) :
  Zpos (Pos.iter xO m d) = Zpos m * 2 ^ Zpos d.
Proof.
  induction d as [|d IH] using Pos.peano_ind.
  - simpl. lia.
  - rewrite Pos.iter_succ, Pos2Z.inj_xO, IH, Pos2Z.inj_succ.
    rewrite Z.pow_succ_r by lia. lia.
Qed.

(** Aligning a mantissa to a smaller exponent keeps the value. *)
Lemma shl_align_value (m : positive) (e e' : Z) :
  e' <= e ->
  Zpos (fst (shl_align m e e')) = Zpos m * 2 ^ (e - e').
Proof.
  intros Hle. unfold shl_align.
  destruct (e' - e) as [|d|d] eqn:Hd; simpl fst; try lia.
  - replace (e - e') with 0 by lia. simpl. lia.
  - replace (e - e') with (Zpos d) by lia. apply iter_xO_value.
Qed.

Lemma shl_align_exponent (m : positive) (e e' : Z) :
  snd (shl_align m e e') = Z.min e e'.
Proof.
  unfold shl_align.
  destruct (e' - e) as [|d|d] eqn:Hd; simpl snd; lia.
Qed.

Lemma binary_round_positive (m : positive) (e : Z) :
  emin <= e -> SFpositive (binary_round prec emax false m e) = true.
Proof.
  intros He. unfold binary_round.
  pose proof (shl_align_exponent m e (fexp prec emax (Zpos (digits2_pos m) + e)))
    as Hs.
  destruct (shl_align _ _ _) as [mz ez]. simpl in Hs.
  apply binary_round_aux_positive; [lia|].
  unfold fexp in Hs. lia.
Qed.

(** The sign of a normalised number is that of its mantissa. *)
Lemma binary_normalize_sign (m e : Z) :
  emin <= e -> SFpositive (binary_normalize prec emax m e false) = (0 <? m).
Proof.
  intros He. destruct m as [|m|m]; simpl binary_normalize.
  - reflexivity.
  - by rewrite binary_round_positive.
  - unfold binary_round. destruct (shl_align _ _ _) as [mz ez].
    by rewrite binary_round_aux_negative.
Qed.

Lemma scaled_aligned (s : bool) (m : positive) (e ez : Z) :
  emin <= ez -> ez <= e ->
  cond_Zopp s (Zpos m * 2 ^ (e - emin))
  = cond_Zopp s (Zpos (fst (shl_align m e ez))) * 2 ^ (ez - emin).
Proof.
  intros H1 H2. rewrite shl_align_value by done.
  replace (e - emin) with ((e - ez) + (ez - emin)) by lia.
  rewrite Z.pow_add_r by lia.
  destruct s; simpl; lia.
Qed.

(** The difference of two numbers is positive exactly when the first
    is the greater. *)
Lemma SFsub_positive (x y : spec_float) :
  valid_binary x = true -> valid_binary y = true ->
  x <> S754_nan -> y <> S754_nan ->
  SFpositive (SF64sub x y) = (SFscaled y <? SFscaled x).
Proof.
  intros Vx Vy Nx Ny.
  assert (Hinf : 0 < 2 ^ (emax - emin)) by (by apply pow2_pos).
  destruct x as [sx|sx| |sx mx ex], y as [sy|sy| |sy my ey]; try done;
    simpl in Vx, Vy; unfold SF64sub, SFsub, SFscaled;
    try pose proof (scaled_finite_bound mx ex Vx);
    try pose proof (scaled_finite_bound my ey Vy).
  - by destruct sx, sy.
  - destruct sy; simpl; symmetry; [apply Z.ltb_lt|apply Z.ltb_ge]; lia.
  - destruct sy; simpl; symmetry; [apply Z.ltb_lt|apply Z.ltb_ge]; lia.
  - destruct sx; simpl; symmetry; [apply Z.ltb_ge|apply Z.ltb_lt]; lia.
  - destruct sx, sy; simpl; symmetry;
      first [apply Z.ltb_ge; lia|apply Z.ltb_lt; lia].
  - destruct sx, sy; simpl; symmetry;
      first [apply Z.ltb_ge; lia|apply Z.ltb_lt; lia].
  - destruct sx; simpl; symmetry; [apply Z.ltb_ge|apply Z.ltb_lt]; lia.
  - destruct sx, sy; simpl; symmetry;
      first [apply Z.ltb_ge; lia|apply Z.ltb_lt; lia].
  - pose proof (bounded_facts mx ex Vx) as (Hex & _).
    pose proof (bounded_facts my ey Vy) as (Hey & _).
    rewrite binary_normalize_sign by lia.
    rewrite (scaled_aligned sx mx ex (Z.min ex ey)) by lia.
    rewrite (scaled_aligned sy my ey (Z.min ex ey)) by lia.
    assert (HK : 0 < 2 ^ (Z.min ex ey - emin)) by (apply pow2_pos; lia).
    generalize dependent (2 ^ (Z.min ex ey - emin)).
    generalize (cond_Zopp sx (Zpos (fst (shl_align mx ex (Z.min ex ey))))).
    generalize (cond_Zopp sy (Zpos (fst (shl_align my ey (Z.min ex ey))))).
    intros Y X K HK.
    destruct (Z.ltb_spec 0 (X - Y)); symmetry;
      [apply Z.ltb_lt|apply Z.ltb_ge]; nia.
Qed.

Lemma Prim2SF_not_nan (x : float) :
  PrimFloat.is_nan x = false -> Prim2SF x <> S754_nan.
Proof.
  intros H. unfold Prim2SF. rewrite H.
  destruct (PrimFloat.is_zero x); [done|]. destruct (PrimFloat.is_infinity x); [done|].
  destruct (Z.frexp x) as [r e].
  destruct (shr_fexp _ _ _ _ _) as [mrs e'].
  by destruct (shr_m mrs).
Qed.

Lemma sub_positive (x y : float) :
  PrimFloat.is_nan x = false -> PrimFloat.is_nan y = false ->
  (0 <? x - y)%float = (scaled y <? scaled x).
Proof.
  intros Hx%Prim2SF_not_nan Hy%Prim2SF_not_nan.
  rewrite FloatAxioms.ltb_spec, FloatAxioms.sub_spec.
  change (Prim2SF 0) with (S754_zero false).
  replace (SFltb (S754_zero false) (SF64sub (Prim2SF x) (Prim2SF y)))
    with (SFpositive (SF64sub (Prim2SF x) (Prim2SF y)))
    by (by destruct (SF64sub _ _) as [[]|[]| |[] ? ?]).
  apply SFsub_positive; auto using Prim2SF_valid.
Qed.

Lemma leb_scaled (x y : float) :
  PrimFloat.is_nan x = false -> PrimFloat.is_nan y = false ->
  (x <=? y)%float = (scaled x <=? scaled y).
Proof.
  intros Hx%Prim2SF_not_nan Hy%Prim2SF_not_nan.
  rewrite FloatAxioms.leb_spec. unfold SFleb.
  rewrite SFcompare_scaled by auto using Prim2SF_valid.
  unfold scaled, Z.leb. by destruct (_ ?= _).
Qed.

Lemma ltb_scaled (x y : float) :
  PrimFloat.is_nan x = false -> PrimFloat.is_nan y = false ->
  (x <? y)%float = (scaled x <? scaled y).
Proof.
  intros Hx%Prim2SF_not_nan Hy%Prim2SF_not_nan.
  rewrite FloatAxioms.ltb_spec. unfold SFltb.
  rewrite SFcompare_scaled by auto using Prim2SF_valid.
  unfold scaled, Z.ltb. by destruct (_ ?= _).
Qed.

(** Without NaN, the comparator [(a, b) => a - b] orders as [<=] does. *)
Lemma not_after_scaled (x y : JS.number) :
  PrimFloat.is_nan x = false -> PrimFloat.is_nan y = false ->
  not_after (fun a b => a - b)%float x y <-> scaled x <= scaled y.
Proof.
  intros Hx Hy. unfold not_after. rewrite (sub_positive x y Hx Hy).
  rewrite Z.ltb_ge. done.
Qed.

Lemma NaN_free_Forall (l : list JS.number) :
  NaN_free l = true <-> Forall (fun x => PrimFloat.is_nan x = false) l.
Proof.
  unfold NaN_free. rewrite forallb_forall, List.Forall_forall.
  split; intros H x Hx; specialize (H x Hx).
  - by apply negb_true_iff in H.
  - by apply negb_true_iff.
Qed.

Lemma sorted_ascending (l : list JS.number) :
  Forall (fun x => PrimFloat.is_nan x = false) l ->
  Sorted (not_after (fun a b => a - b)%float) l -> ascending l.
Proof.
  intros Hnan Hsorted.
  assert (Hs : Sorted (fun x y => scaled x <= scaled y) l).
  { induction Hsorted as [|x l Hl IH Hhd]; [constructor|].
    apply Forall_cons in Hnan as [Hx Hnan].
    constructor; [by apply IH|].
    destruct Hhd as [|y l Hxy]; constructor.
    apply Forall_cons in Hnan as [Hy _]. by apply not_after_scaled. }
  apply Sorted_StronglySorted in Hs; [|intros x y z ? ?; lia].
  unfold ascending. clear Hsorted.
  induction Hs as [|x l Hl IH Hall]; [constructor|].
  apply Forall_cons in Hnan as [Hx Hnan].
  constructor; [by apply IH|].
  rewrite List.Forall_forall in Hall, Hnan. apply List.Forall_forall.
  intros y Hy. rewrite leb_scaled by auto. apply Z.leb_le. auto.
Qed.

(** An array without NaN that is in ascending order is in the order of
    the comparator, so that the sort leaves it as it is. *)
Lemma ascending_sort_id (l : list JS.number) :
  NaN_free l = true -> ascending l -> JS.sort (fun a b => a - b)%float l = l.
Proof.
  intros Hnan%NaN_free_Forall Hasc. apply sort_sorted_id.
  apply StronglySorted_Sorted.
  induction Hasc as [|x l Hl IH Hall]; [constructor|].
  apply Forall_cons in Hnan as [Hx Hnan].
  constructor; [by apply IH|].
  rewrite List.Forall_forall in Hall, Hnan. apply List.Forall_forall.
  intros y Hy. apply not_after_scaled; auto.
  apply Z.leb_le. rewrite <- leb_scaled by auto. auto.
Qed.

(** The array that [sort((a, b) => a - b)] leaves of an array without
    NaN is in ascending order. *)
Lemma sort_numbers_ascending (l : list JS.number) :
  NaN_free l = true -> ascending (JS.sort (fun a b => a - b)%float l).
Proof.
  intros Hnan%NaN_free_Forall. apply sorted_ascending.
  - eapply Permutation_Forall; [|exact Hnan].
    symmetry. apply sort_perm.
  - apply sort_numbers_sorted.
Qed.

End Subtraction.

(** ** [createPerformanceMetrics] *)

Section Metrics.
Import JS APITestUtils.

(** The call unfolded on a live array: the heap holds the sorted array
    in the place of the caller's, and the four fields are read from
    it. *)
Lemma createPerformanceMetrics_eq (r : ref) (h : heap) (a : list number) :
  h !! r = Some a ->
  let sorted := sort (fun a b => a - b)%float a in
  createPerformanceMetrics r h
  = (<[r := sorted]> h,
     {| min := get sorted 0;
        max := get sorted (Z.of_nat (length sorted) - 1);
        avg := (reduce (fun acc val => acc + val)%float 0%float sorted
                / number_of_nat (length sorted))%float;
        median := get sorted (Z.of_nat (length sorted) / 2) |}).
Proof.
  intros Hr sorted. unfold createPerformanceMetrics, Array_sort, deref.
  rewrite Hr. fold sorted.
  assert (Hlt : (r < length h)%nat) by (eapply lookup_lt_Some; eauto).
  by rewrite list_lookup_insert_eq.
Qed.

(** C1 (as stated, refuted): on the empty array the call does hand back
    a summary, and its mean is the NaN of [0 / 0]. *)
Lemma empty_samples_mean_is_nan :
  ~ Spec.no_silent_division_by_zero 0%nat [[]].
Proof. intros [Hnan _]. vm_compute in Hnan. discriminate Hnan. Qed.

(** C1 (amended): for the empty sequence of samples
    [createPerformanceMetrics] does not fail. It returns a summary whose
    [min], [max] and [median] are [undefined] and whose [avg] is NaN
    (the quotient [0 / 0]; it is not infinite), and it leaves the heap
    as it was. *)
Theorem createPerformanceMetrics_empty (r : ref) (h : heap) :
  h !! r = Some [] ->
  createPerformanceMetrics r h
  = (h, {| min := None; max := None; avg := nan; median := None |})
  /\ PrimFloat.is_nan (avg (snd (createPerformanceMetrics r h))) = true
  /\ PrimFloat.is_infinity (avg (snd (createPerformanceMetrics r h))) = false.
Proof.
  intros Hr. rewrite (createPerformanceMetrics_eq r h [] Hr). simpl.
  rewrite (list_insert_id h r [] Hr). repeat split.
Qed.

Lemma createPerformanceMetrics_empty_witness :
  createPerformanceMetrics 0%nat [[]]
  = ([[]], {| min := None; max := None; avg := nan; median := None |})
  /\ PrimFloat.is_nan (avg (snd (createPerformanceMetrics 0%nat [[]]))) = true
  /\ PrimFloat.is_infinity (avg (snd (createPerformanceMetrics 0%nat [[]]))) = false.
Proof. apply (createPerformanceMetrics_empty 0%nat [[]]). reflexivity. Defined.

(** C6 (as stated, refuted): the median of [1, 2, 3, 4] is not the
    lower-middle element [2] of the sorted array. *)
Lemma median_not_lower_middle :
  ~ Spec.median_is_lower_middle [1; 2; 3; 4]%float.
Proof.
  unfold Spec.median_is_lower_middle. vm_compute. intros H. discriminate H.
Qed.

(** C6 (amended): for every even-length sequence of samples, [2 * k]
    of them and none of them NaN, the median computed by
    [createPerformanceMetrics] is the upper-middle element of the
    sequence sorted ascending: the element of zero-based index [k] (the
    index [Math.floor(length / 2)]) of the rearrangement of the samples
    in which every element is at most ([<=]) every later one. In
    particular [summarize([1,2,3,4])] yields min 1, max 4, mean 2.5 and
    median 3, and [summarize([5])] yields min 5, max 5, mean 5 and
    median 5. *)
Theorem median_is_upper_middle (r : ref) (h : heap) (a : list number) (k : nat) :
  h !! r = Some a -> NaN_free a = true ->
  length a = (2 * k)%nat -> (0 < k)%nat ->
  let sorted := sort (fun a b => a - b)%float a in
  let m := snd (createPerformanceMetrics r h) in
  (sorted ≡ₚ a
   /\ ascending sorted
   /\ median m = sorted !! k
   /\ is_Some (sorted !! k))
  /\ snd (createPerformanceMetrics 0%nat [[1; 2; 3; 4]%float])
     = {| min := Some 1%float; max := Some 4%float;
          avg := 2.5%float; median := Some 3%float |}
  /\ snd (createPerformanceMetrics 0%nat [[5]%float])
     = {| min := Some 5%float; max := Some 5%float;
          avg := 5%float; median := Some 5%float |}.
Proof.
  intros Hr Hnan Hlen Hk sorted m. split; [|by split].
  assert (Hsl : length sorted = (2 * k)%nat)
    by (unfold sorted; by rewrite sort_length).
  split; [apply sort_perm|].
  split; [by apply sort_numbers_ascending|].
  split.
  - unfold m. rewrite (createPerformanceMetrics_eq r h a Hr). simpl.
    fold sorted. rewrite Hsl. unfold get.
    replace (Z.of_nat (2 * k) / 2) with (Z.of_nat k)
      by (rewrite Nat2Z.inj_mul, Z.mul_comm, Z.div_mul; lia).
    destruct (Z.of_nat k <? 0) eqn:Hneg; [lia|].
    by rewrite Nat2Z.id.
  - apply lookup_lt_is_Some. lia.
Qed.

Lemma median_is_upper_middle_witness :
  let a := [4; 1; 3; 2]%float in
  let sorted := sort (fun a b => a - b)%float a in
  ascending sorted
  /\ median (snd (createPerformanceMetrics 0%nat [a])) = sorted !! 2%nat
  /\ sorted !! 2%nat = Some 3%float.
Proof.
  intros a sorted.
  destruct (median_is_upper_middle 0%nat [a] a 2%nat) as [(_ & Hs & Hm & _) _];
    [reflexivity|reflexivity|reflexivity|lia|].
  split; [exact Hs|]. split; [exact Hm|reflexivity].
Defined.

(** C7 (as stated, refuted): after summarising [3, 1, 2] the caller's
    array no longer holds [3, 1, 2]. *)
Lemma input_is_reordered : ~ Spec.input_unchanged 0%nat [[3; 1; 2]%float].
Proof.
  unfold Spec.input_unchanged. vm_compute. intros H. discriminate H.
Qed.

(** C7 (amended): [createPerformanceMetrics] sorts the caller's array
    itself, not a copy. After the call on a sequence of samples without
    NaN, the input sequence holds the same elements rearranged in
    ascending order (every element at most every later one); it is
    unchanged exactly when it already was in ascending order. No other
    array is touched. *)
Theorem createPerformanceMetrics_sorts_in_place (r : ref) (h : heap)
    (a : list number) :
  h !! r = Some a -> NaN_free a = true ->
  let h' := fst (createPerformanceMetrics r h) in
  let sorted := sort (fun a b => a - b)%float a in
  h' !! r = Some sorted
  /\ sorted ≡ₚ a
  /\ ascending sorted
  /\ (forall r' : ref, r' <> r -> h' !! r' = h !! r')
  /\ (Spec.input_unchanged r h <-> sorted = a)
  /\ (sorted = a <-> ascending a).
Proof.
  intros Hr Hnan h' sorted.
  assert (Hlt : (r < length h)%nat) by (eapply lookup_lt_Some; eauto).
  assert (Hh' : h' = <[r := sorted]> h)
    by (unfold h'; by rewrite (createPerformanceMetrics_eq r h a Hr)).
  assert (Hr' : h' !! r = Some sorted)
    by (rewrite Hh'; by apply list_lookup_insert_eq).
  split; [done|]. split; [apply sort_perm|].
  split; [by apply sort_numbers_ascending|]. split.
  - intros r' Hne. rewrite Hh'. by apply list_lookup_insert_ne.
  - split.
    + unfold Spec.input_unchanged, deref. fold h'. by rewrite Hr', Hr.
    + split.
      * intros Heq. rewrite <- Heq. by apply sort_numbers_ascending.
      * by apply ascending_sort_id.
Qed.

Lemma createPerformanceMetrics_sorts_in_place_witness :
  fst (createPerformanceMetrics 0%nat [[3; 1; 2]%float]) !! 0%nat
  = Some (sort (fun a b => a - b)%float [3; 1; 2]%float)
  /\ ascending (sort (fun a b => a - b)%float [3; 1; 2]%float).
Proof.
  destruct (createPerformanceMetrics_sorts_in_place 0%nat [[3; 1; 2]%float]
              [3; 1; 2]%float) as (Hr & _ & Hs & _);
    [reflexivity|reflexivity|].
  split; [exact Hr|exact Hs].
Defined.

End Metrics.

(** ** [retry] *)

Section Retry.
Import JS TestHelpers.
Context {S T : Type}.
Variable action : S -> S * settled T.
Variables maxAttempts delayMs : Z.

Lemma invocations_app (l1 l2 : list event) :
  invocations (l1 ++ l2) = (invocations l1 + invocations l2)%nat.
Proof.
  unfold invocations. induction l1 as [|[|ms] l1 IH]; simpl; auto.
Qed.

Lemma invocations_failed_attempts (k : nat) :
  invocations (failed_attempts delayMs k) = k.
Proof.
  induction k as [|k IH]; [done|].
  change (failed_attempts delayMs (Datatypes.S k))
    with ([Invoked; Slept delayMs] ++ failed_attempts delayMs k).
  rewrite invocations_app, IH. done.
Qed.

Lemma fails_first_tail (k : nat) (s : S) :
  fails_first action (Datatypes.S k) s -> fails_first action k (fst (action s)).
Proof. intros H i Hi. apply (H (Datatypes.S i)). lia. Qed.

(** Once [attempt] has passed [maxAttempts] the loop is left and
    [lastError] is thrown. *)
Lemma retry_loop_done (fuel : nat) (attempt : Z) (lastError : value)
    (s : S) (log : list event) :
  maxAttempts < attempt ->
  retry_loop action maxAttempts delayMs fuel attempt lastError s log
  = Some (s, log, Throw lastError).
Proof.
  intros H. destruct fuel; simpl;
    destruct (attempt <=? maxAttempts) eqn:E; try done; lia.
Qed.

(** [k] failures and then a success, with attempts to spare. *)
Lemma retry_loop_success (k : nat) (v : T) :
  forall (fuel : nat) (attempt : Z) (lastError : value) (s : S)
         (log : list event),
    attempt + Z.of_nat k <= maxAttempts -> (k < fuel)%nat ->
    fails_first action k s ->
    snd (action (state_after action k s)) = Resolved v ->
    retry_loop action maxAttempts delayMs fuel attempt lastError s log
    = Some (state_after action (Datatypes.S k) s,
            log ++ failed_attempts delayMs k ++ [Invoked], Return v).
Proof.
  induction k as [|k IH]; intros fuel attempt lastError s log Hle Hfuel Hfail Hok;
    (destruct fuel as [|fuel]; [lia|]); simpl;
    (destruct (attempt <=? maxAttempts) eqn:E; [|lia]).
  - simpl in Hok. destruct (action s) as [s' r]. simpl in Hok. by subst r.
  - destruct (Hfail O) as [e He]; [lia|]. simpl in He.
    pose proof (fails_first_tail k s Hfail) as Hfail'.
    simpl in Hok. destruct (action s) as [s' r]. simpl in *. subst r.
    destruct (attempt <? maxAttempts) eqn:E'; [|lia].
    rewrite (IH fuel (attempt + 1) e s'); [|lia|lia|done|done].
    by rewrite <- !app_assoc.
Qed.

(** Every remaining attempt fails: the last error is rethrown as it
    is. *)
Lemma retry_loop_exhausted (m : nat) :
  forall (fuel : nat) (attempt : Z) (lastError : value) (s : S)
         (log : list event),
    attempt + Z.of_nat m = maxAttempts -> (m < fuel)%nat ->
    fails_first action (Datatypes.S m) s ->
    exists last,
      snd (action (state_after action m s)) = Rejected last
      /\ retry_loop action maxAttempts delayMs fuel attempt lastError s log
         = Some (state_after action (Datatypes.S m) s,
                 log ++ failed_attempts delayMs m ++ [Invoked], Throw last).
Proof.
  induction m as [|m IH]; intros fuel attempt lastError s log Hle Hfuel Hfail;
    (destruct fuel as [|fuel]; [lia|]); simpl;
    (destruct (attempt <=? maxAttempts) eqn:E; [|lia]).
  - destruct (Hfail O) as [e He]; [lia|]. simpl in He.
    destruct (action s) as [s' r]. simpl in *. subst r.
    exists e. split; [done|].
    destruct (attempt <? maxAttempts) eqn:E'; [lia|].
    apply retry_loop_done. lia.
  - destruct (Hfail O) as [e He]; [lia|]. simpl in He.
    pose proof (fails_first_tail _ s Hfail) as Hfail'.
    destruct (action s) as [s' r]. simpl in *. subst r.
    destruct (attempt <? maxAttempts) eqn:E'; [|lia].
    destruct (IH fuel (attempt + 1) e s' ((log ++ [Invoked]) ++ [Slept delayMs]))
      as (last & Hlast & Hrun); [lia|lia|done|].
    exists last. split; [done|]. rewrite Hrun. by rewrite <- !app_assoc.
Qed.

(** Whatever the action does, the loop ends, having invoked it no more
    often than there were attempts left. *)
Lemma retry_loop_bounded (fuel : nat) :
  forall (attempt : Z) (lastError : value) (s : S) (log : list event),
    (Z.to_nat (maxAttempts - attempt + 1) <= fuel)%nat ->
    exists s' log' out,
      retry_loop action maxAttempts delayMs fuel attempt lastError s log
      = Some (s', log ++ log', out)
      /\ Z.of_nat (invocations log') <= Z.max 0 (maxAttempts - attempt + 1).
Proof.
  induction fuel as [|fuel IH]; intros attempt lastError s log Hfuel; simpl;
    destruct (attempt <=? maxAttempts) eqn:E; try lia.
  - exists s, [], (Throw lastError). rewrite app_nil_r. split; [done|].
    change (invocations []) with O. lia.
  - destruct (action s) as [s' [v|e]].
    + exists s', [Invoked], (Return v). split; [done|].
      change (invocations [Invoked]) with 1%nat. lia.
    + destruct (IH (attempt + 1) e s'
                  (if attempt <? maxAttempts
                   then (log ++ [Invoked]) ++ [Slept delayMs]
                   else log ++ [Invoked]))
        as (s'' & log' & out & Hrun & Hinv); [lia|].
      rewrite Hrun. destruct (attempt <? maxAttempts).
      * exists s'', ([Invoked; Slept delayMs] ++ log'), out.
        split; [by rewrite <- !app_assoc|].
        rewrite invocations_app.
        change (invocations [Invoked; Slept delayMs]) with 1%nat. lia.
      * exists s'', ([Invoked] ++ log'), out.
        split; [by rewrite <- !app_assoc|].
        rewrite invocations_app.
        change (invocations [Invoked]) with 1%nat. lia.
  - exists s, [], (Throw lastError). rewrite app_nil_r. split; [done|].
    change (invocations []) with O. lia.
Qed.

End Retry.

(** C2: with [maxAttempts = N >= 1], [retry] invokes the action at most
    [N] times (and ends); if the action fails on exactly its first [K]
    invocations, [K < N], and succeeds on the next, [retry] returns that
    success having invoked the action exactly [K + 1] times; and with
    [maxAttempts = 1] the action is invoked exactly once, with no delay
    and no retry, whatever the failure. *)
Theorem retry_attempts {S T : Type} (action : S -> S * JS.settled T)
    (N delayMs : Z) (s : S) :
  1 <= N ->
  (exists s' log out,
      TestHelpers.retry action N delayMs s = Some (s', log, out)
      /\ Z.of_nat (TestHelpers.invocations log) <= N)
  /\ (forall (K : nat) (v : T),
        Z.of_nat K < N ->
        TestHelpers.fails_first action K s ->
        snd (action (TestHelpers.state_after action K s)) = JS.Resolved v ->
        TestHelpers.retry action N delayMs s
        = Some (TestHelpers.state_after action (Datatypes.S K) s,
                TestHelpers.failed_attempts delayMs K ++ [TestHelpers.Invoked],
                JS.Return v)
        /\ TestHelpers.invocations
             (TestHelpers.failed_attempts delayMs K ++ [TestHelpers.Invoked])
           = Datatypes.S K)
  /\ (N = 1 ->
      TestHelpers.retry action N delayMs s
      = Some (fst (action s), [TestHelpers.Invoked],
              match snd (action s) with
              | JS.Resolved v => JS.Return v
              | JS.Rejected e => JS.Throw e
              end)).
Proof.
  intros HN. unfold TestHelpers.retry. split; [|split].
  - destruct (retry_loop_bounded action N delayMs (Z.to_nat N) 1 JS.VUndefined s [])
      as (s' & log & out & Hrun & Hinv); [lia|].
    exists s', log, out. split; [done|lia].
  - intros K v HK Hfail Hok. split.
    + rewrite (retry_loop_success action N delayMs K v); [done|lia|lia|done|done].
    + rewrite invocations_app, invocations_failed_attempts.
      change (TestHelpers.invocations [TestHelpers.Invoked]) with 1%nat. lia.
  - intros ->. simpl. destruct (action s) as [s' [v|e]]; reflexivity.
Qed.

Lemma retry_attempts_witness :
  TestHelpers.retry (Samples.flaky 1) 3 100 0%nat
  = Some (2%nat,
          [TestHelpers.Invoked; TestHelpers.Slept 100; TestHelpers.Invoked],
          JS.Return "ok"%string).
Proof.
  destruct (retry_attempts (Samples.flaky 1) 3 100 0%nat ltac:(lia))
    as (_ & Hsuccess & _).
  apply (Hsuccess 1%nat "ok"%string); [lia| |reflexivity].
  intros [|i] Hi; [eexists; reflexivity|lia].
Defined.

(** C5 (as stated, refuted): after two failed attempts of an action that
    throws [new Error("boom")], what [retry] throws is not an instance of
    [RetryExhaustedError]. *)
Lemma exhaustion_is_not_wrapped :
  ~ Spec.exhaustion_is_wrapped Samples.always_boom 2 100 0%nat.
Proof.
  intros H.
  specialize (H 2%nat
                [TestHelpers.Invoked; TestHelpers.Slept 100; TestHelpers.Invoked]
                (JS.VError "Error" "boom") eq_refl).
  discriminate H.
Qed.

(** C5 (amended): whenever every one of the [maxAttempts >= 1] attempts of
    [retry] fails, [retry] throws the last observed error itself: the very
    value that the last invocation rejected with, neither wrapped nor
    accompanied by an attempt count. It never swallows the final failure:
    the run ends by throwing, not by returning. *)
Theorem retry_exhausted_rethrows_last {S T : Type}
    (action : S -> S * JS.settled T) (N delayMs : Z) (s : S) :
  1 <= N ->
  TestHelpers.fails_first action (Z.to_nat N) s ->
  exists last,
    snd (action (TestHelpers.state_after action (Z.to_nat N - 1) s))
    = JS.Rejected last
    /\ TestHelpers.retry action N delayMs s
       = Some (TestHelpers.state_after action (Z.to_nat N) s,
               TestHelpers.failed_attempts delayMs (Z.to_nat N - 1)
                 ++ [TestHelpers.Invoked],
               JS.Throw last)
    /\ TestHelpers.invocations
         (TestHelpers.failed_attempts delayMs (Z.to_nat N - 1)
            ++ [TestHelpers.Invoked])
       = Z.to_nat N.
Proof.
  intros HN Hfail. unfold TestHelpers.retry.
  destruct (Z.to_nat N) as [|m] eqn:Hm; [lia|].
  replace (Datatypes.S m - 1)%nat with m by lia.
  destruct (retry_loop_exhausted action N delayMs m (Datatypes.S m) 1
              JS.VUndefined s []) as (last & Hlast & Hrun); [lia|lia|done|].
  exists last. split; [done|]. split; [done|].
  rewrite invocations_app, invocations_failed_attempts.
  change (TestHelpers.invocations [TestHelpers.Invoked]) with 1%nat. lia.
Qed.

Lemma retry_exhausted_rethrows_last_witness :
  exists last,
    snd (Samples.always_boom (TestHelpers.state_after Samples.always_boom 1 0%nat))
    = JS.Rejected last
    /\ TestHelpers.retry Samples.always_boom 2 100 0%nat
       = Some (2%nat,
               [TestHelpers.Invoked; TestHelpers.Slept 100; TestHelpers.Invoked],
               JS.Throw last)
    /\ TestHelpers.invocations
         [TestHelpers.Invoked; TestHelpers.Slept 100; TestHelpers.Invoked]
       = 2%nat.
Proof.
  apply (retry_exhausted_rethrows_last Samples.always_boom 2 100 0%nat);
    [lia|].
  intros i _. eexists. reflexivity.
Defined.

(** C10: called with [maxAttempts < 1], [retry] never enters its loop:
    the action is not invoked, nothing is awaited, and the function throws
    [undefined], the initial value of [lastError], not an [Error]
    object. *)
Theorem retry_without_attempts {S T : Type} (action : S -> S * JS.settled T)
    (N delayMs : Z) (s : S) :
  N < 1 ->
  TestHelpers.retry action N delayMs s = Some (s, [], JS.Throw JS.VUndefined)
  /\ TestHelpers.invocations [] = 0%nat
  /\ JS.instance_of "Error" JS.VUndefined = false.
Proof.
  intros HN. split; [|done]. unfold TestHelpers.retry.
  apply retry_loop_done. lia.
Qed.

Lemma retry_without_attempts_witness :
  TestHelpers.retry Samples.always_boom 0 1000 0%nat
  = Some (0%nat, [], JS.Throw JS.VUndefined)
  /\ TestHelpers.invocations [] = 0%nat
  /\ JS.instance_of "Error" JS.VUndefined = false.
Proof. apply (retry_without_attempts Samples.always_boom 0 1000 0%nat). lia. Defined.

(** ** [waitForCondition] *)

Section Polling.
Import JS APITestUtils.
Context {S : Type}.
Variable condition : world S -> world S * settled bool.
Variables timeout interval : Z.


(** Once the time is up the loop is left with the timeout error. *)
Lemma poll_elapsed (fuel : nat) (startTime : Z) (w : world S)
    (log : list event) :
  timeout <= now w - startTime ->
  poll condition timeout interval fuel startTime w log
  = Some (w, log, Throw (timeout_error timeout)).
Proof.
  intros H. destruct fuel; simpl;
    destruct (now w - startTime <? timeout) eqn:E; try done; lia.
Qed.

Hypothesis interval_positive : 1 <= interval.
Hypothesis clock_monotone : forall w, now w <= now (fst (condition w)).



End Polling.




(** ** [validateJSONStructure] *)

Section Validation.
Import JS APITestUtils.
Variable Body : Type.
Variable has_property : Body -> string -> bool.
Variable expect_error : string -> Body -> string -> value.

Lemma check_keys_present (body : Body) (keys : list string) :
  forall checked,
    Forall (fun k => has_property body k = true) keys ->
    check_keys Body has_property expect_error body keys checked
    = (checked ++ keys, Return tt).
Proof.
  induction keys as [|k keys IH]; intros checked Hall; simpl.
  - by rewrite app_nil_r.
  - apply Forall_cons in Hall as [Hk Hall].
    unfold expect_toHaveProperty. rewrite Hk.
    rewrite IH; [|done]. by rewrite <- app_assoc.
Qed.

Lemma check_keys_missing (body : Body) (pre post : list string) (key : string) :
  forall checked,
    Forall (fun k => has_property body k = true) pre ->
    has_property body key = false ->
    check_keys Body has_property expect_error body (pre ++ key :: post) checked
    = (checked ++ pre ++ [key],
       Throw (expect_error ("Missing key: " ++ key) body key)).
Proof.
  induction pre as [|k pre IH]; intros checked Hall Hkey; simpl.
  - unfold expect_toHaveProperty. by rewrite Hkey.
  - apply Forall_cons in Hall as [Hk Hall].
    unfold expect_toHaveProperty. rewrite Hk.
    rewrite IH; [|done|done]. by rewrite <- app_assoc.
Qed.

End Validation.

(** C4 (as stated, refuted): on a response without the required keys [id]
    and [name], validation does not return its findings after checking
    every key. *)
Lemma missing_keys_are_thrown :
  ~ Spec.violations_are_data (list string) Samples.has_name
      Samples.assertion_error Samples.response_without_id_name
      ["price"; "id"; "name"]%string.
Proof.
  intros H. specialize (H ["price"%string] eq_refl). discriminate H.
Qed.

(** C4 (amended): [validateJSONStructure] returns normally when every
    expected key is present, having checked them all. For a business
    validation failure it throws: the assertion of the first missing key,
    in the order of [expectedKeys], fails with the message "Missing key:
    <key>", and no later key is checked; so for a response missing two
    required keys it reports one failure, that of the first of them. *)
Theorem validateJSONStructure_first_missing_key (Body : Type)
    (has_property : Body -> string -> bool)
    (expect_error : string -> Body -> string -> JS.value)
    (response : APITestUtils.APIResponse Body) (body : Body) :
  APITestUtils.json Body response = JS.Resolved body ->
  (forall keys,
      Forall (fun k => has_property body k = true) keys ->
      APITestUtils.validateJSONStructure Body has_property expect_error
        response keys
      = (keys, JS.Return tt))
  /\ (forall pre key post,
        Forall (fun k => has_property body k = true) pre ->
        has_property body key = false ->
        APITestUtils.validateJSONStructure Body has_property expect_error
          response (pre ++ key :: post)
        = (pre ++ [key],
           JS.Throw (expect_error ("Missing key: " ++ key)%string body key))).
Proof.
  intros Hjson. unfold APITestUtils.validateJSONStructure. rewrite Hjson.
  split.
  - intros keys Hall. by rewrite check_keys_present.
  - intros pre key post Hall Hkey. by rewrite check_keys_missing.
Qed.

Lemma validateJSONStructure_first_missing_key_witness :
  APITestUtils.validateJSONStructure (list string) Samples.has_name
    Samples.assertion_error Samples.response_without_id_name
    ["price"; "id"; "name"]%string
  = (["price"; "id"]%string, JS.Throw (JS.VError "Error" "Missing key: id")).
Proof.
  destruct (validateJSONStructure_first_missing_key (list string)
              Samples.has_name Samples.assertion_error
              Samples.response_without_id_name ["price"%string] eq_refl)
    as [_ Hmissing].
  apply (Hmissing ["price"%string] "id"%string ["name"%string]).
  - repeat constructor.
  - reflexivity.
Defined.

(** ** [URLSearchParams] and [buildURL] *)

Section QueryString.
Import URLSearchParams.
Local Open Scope string_scope.

Lemma occurrences_app (c : ascii) (a b : string) :
  occurrences c (a ++ b) = (occurrences c a + occurrences c b)%nat.
Proof. induction a as [|x a IH]; simpl; [done|]. rewrite IH. lia. Qed.

(** A property checked on the 256 bytes holds of every byte. *)
Lemma all_bytes (P : ascii -> bool) :
  List.forallb (fun n => P (ascii_of_nat n)) (List.seq 0 256) = true ->
  forall c, P c = true.
Proof.
  intros H c. rewrite <- (ascii_nat_embedding c).
  apply (proj1 (List.forallb_forall _ _) H).
  apply List.in_seq. pose proof (nat_ascii_bounded c). lia.
Qed.

(** An encoded byte holds none of them. *)
Lemma encode_byte_clean (d c : ascii) :
  delimiter d -> occurrences d (encode_byte c) = O.
Proof.
  assert (H : forall c,
             ((occurrences "&" (encode_byte c) =? 0)
              && (occurrences "=" (encode_byte c) =? 0)
              && (occurrences "?" (encode_byte c) =? 0))%nat = true)
    by (apply all_bytes; vm_compute; reflexivity).
  specialize (H c). apply andb_prop in H as [H H3]. apply andb_prop in H as [H1 H2].
  apply Nat.eqb_eq in H1, H2, H3.
  by intros [->|[->| ->]].
Qed.

Lemma urlencode_clean (d : ascii) (s : string) :
  delimiter d -> occurrences d (urlencode s) = O.
Proof.
  intros Hd. induction s as [|c s IH]; simpl; [done|].
  by rewrite occurrences_app, encode_byte_clean, IH.
Qed.

Lemma plus_to_space_app (a b : string) :
  plus_to_space (a ++ b) = plus_to_space a ++ plus_to_space b.
Proof. induction a as [|x a IH]; simpl; [done|]. by rewrite IH. Qed.

(** Decoding undoes the encoding of a byte, whatever follows. *)
Lemma percent_decode_encode_byte (c : ascii) (rest : string) :
  percent_decode (plus_to_space (encode_byte c) ++ rest)
  = String c (percent_decode rest).
Proof.
  destruct c as [[] [] [] [] [] [] [] []]; reflexivity.
Qed.

Lemma urldecode_urlencode (s : string) : urldecode (urlencode s) = s.
Proof.
  unfold urldecode. induction s as [|c s IH]; simpl; [done|].
  by rewrite plus_to_space_app, percent_decode_encode_byte, IH.
Qed.

Lemma split_first_clean (sep : ascii) (a b : string) :
  occurrences sep a = O ->
  split_first sep (a ++ String sep b) = (a, Some b).
Proof.
  induction a as [|x a IH]; simpl.
  - by rewrite Ascii.eqb_refl.
  - destruct (Ascii.eqb x sep); [done|]. intros H. by rewrite IH.
Qed.

Lemma split_clean (sep : ascii) (a : string) :
  occurrences sep a = O -> split sep a = [a].
Proof.
  induction a as [|x a IH]; simpl; [done|].
  destruct (Ascii.eqb x sep); [done|]. intros H. by rewrite IH.
Qed.

Lemma split_app (sep : ascii) (a b : string) :
  occurrences sep a = O ->
  split sep (a ++ String sep b) = a :: split sep b.
Proof.
  induction a as [|x a IH]; simpl.
  - by rewrite Ascii.eqb_refl.
  - destruct (Ascii.eqb x sep); [done|]. intros H. by rewrite IH.
Qed.

Lemma pair_string_clean (d : ascii) (p : string * string) :
  d = "&"%char \/ d = "?"%char -> occurrences d (pair_string p) = O.
Proof.
  intros Hd. unfold pair_string.
  rewrite !occurrences_app, !urlencode_clean
    by (unfold delimiter; tauto).
  by destruct Hd as [->| ->].
Qed.

Lemma pair_string_nonempty (p : string * string) :
  String.eqb (pair_string p) "" = false.
Proof.
  unfold pair_string. destruct (urlencode (fst p)); reflexivity.
Qed.

Lemma parse_pair_string (p : string * string) : parse_pair (pair_string p) = p.
Proof.
  unfold parse_pair, pair_string. simpl.
  rewrite split_first_clean by (apply urlencode_clean; unfold delimiter; tauto).
  simpl. rewrite !urldecode_urlencode. by destruct p.
Qed.

Lemma split_concat (p : string * string) (pairs : list (string * string)) :
  split "&" (String.concat "&" (map pair_string (p :: pairs)))
  = map pair_string (p :: pairs).
Proof.
  revert p. induction pairs as [|q pairs IH]; intros p.
  - simpl. apply split_clean, pair_string_clean. by left.
  - change (String.concat "&" (map pair_string (p :: q :: pairs)))
      with (pair_string p ++ String "&" (String.concat "&" (map pair_string (q :: pairs)))).
    rewrite split_app by (apply pair_string_clean; by left).
    by rewrite IH.
Qed.

(** Reading a serialized query back gives the pairs, in their order. *)
Lemma parse_toString (pairs : list (string * string)) :
  parse (toString pairs) = pairs.
Proof.
  unfold toString, parse.
  destruct pairs as [|p pairs]; [reflexivity|].
  rewrite split_concat.
  induction (p :: pairs) as [|q l IH]; [done|].
  simpl. rewrite pair_string_nonempty. simpl.
  by rewrite parse_pair_string, IH.
Qed.

(** The serialized query holds no [?]. *)
Lemma toString_no_question_mark (pairs : list (string * string)) :
  occurrences "?" (toString pairs) = O.
Proof.
  unfold toString.
  induction pairs as [|p [|q pairs] IH].
  - reflexivity.
  - simpl. apply pair_string_clean. by right.
  - change (String.concat "&" (map pair_string (p :: q :: pairs)))
      with (pair_string p ++ String "&" (String.concat "&" (map pair_string (q :: pairs)))).
    rewrite occurrences_app. simpl occurrences at 2.
    rewrite pair_string_clean by (by right).
    simpl in IH. by rewrite IH.
Qed.

Lemma string_app_inv_head (a b c : string) : a ++ b = a ++ c -> b = c.
Proof. induction a as [|x a IH]; simpl; [done|]. intros [= H]. auto. Qed.

End QueryString.

(** ** Records *)

Section Records.
Import Record_.

Lemma indexed_named (o : t) :
  Forall (fun e => array_index (fst e) = None) o -> indexed o = [].
Proof.
  unfold indexed. induction 1 as [|e o He Hall IH]; simpl; [done|].
  by rewrite He.
Qed.

Lemma named_named (o : t) :
  Forall (fun e => array_index (fst e) = None) o -> named o = o.
Proof.
  unfold named. induction 1 as [|e o He Hall IH]; simpl; [done|].
  rewrite He. by rewrite IH.
Qed.

(** A record without array-index keys is enumerated in creation
    order. *)
Lemma entries_named (o : t) :
  Forall (fun e => array_index (fst e) = None) o -> entries o = o.
Proof.
  intros Hall. unfold entries.
  by rewrite (indexed_named o Hall), (named_named o Hall).
Qed.

Lemma set_fresh (k : string) (v : pvalue) (o : t) :
  k ∉ map fst o -> set k v o = o ++ [(k, v)].
Proof.
  induction o as [|[k' v'] o IH]; simpl; [done|].
  intros Hk. apply not_elem_of_cons in Hk as [Hne Hk].
  destruct (String.eqb k' k) eqn:E.
  - apply String.eqb_eq in E. congruence.
  - by rewrite IH.
Qed.

Lemma fold_set_distinct (l : list (string * pvalue)) :
  forall acc, NoDup (map fst (acc ++ l)) ->
    fold_left (fun o '(k, v) => set k v o) l acc = acc ++ l.
Proof.
  induction l as [|[k v] l IH]; intros acc Hnd; simpl.
  - by rewrite app_nil_r.
  - rewrite set_fresh.
    + rewrite IH; [by rewrite <- app_assoc|]. by rewrite <- app_assoc.
    + rewrite map_app in Hnd. simpl in Hnd.
      apply NoDup_app in Hnd as (_ & Hdisj & _).
      intros Hin. apply (Hdisj k Hin). by left.
Qed.

(** An object literal with distinct keys holds its properties in the
    order in which they are written. *)
Lemma literal_distinct (l : list (string * pvalue)) :
  NoDup (map fst l) -> literal l = l.
Proof. intros Hnd. unfold literal. by rewrite fold_set_distinct. Qed.

End Records.

(** C8 (as stated, refuted): the parameters [limit] and [start], inserted
    in the two orders, are the same mapping and serialize differently. *)
Lemma insertion_order_shows :
  ~ Spec.serialization_ignores_insertion_order Samples.demo_client
      "/index.php?route=api/product" Samples.limit_then_start
      Samples.start_then_limit.
Proof.
  intros H. assert (Hurl : Spec.same_mapping Samples.limit_then_start
                                            Samples.start_then_limit).
  { intros k.
    change (Record_.get k [("limit"%string, Record_.PInteger 20);
                           ("start"%string, Record_.PInteger 0)]
            = Record_.get k [("start"%string, Record_.PInteger 0);
                             ("limit"%string, Record_.PInteger 20)]).
    unfold Record_.get.
    destruct (String.eqb "limit" k) eqn:El, (String.eqb "start" k) eqn:Es;
      try reflexivity.
    apply String.eqb_eq in El, Es. congruence. }
  specialize (H Hurl). vm_compute in H. discriminate H.
Qed.

(** C8 (amended): [buildURL] serializes the query parameters
    deterministically, in the order in which the mapping enumerates its
    own properties, which for the non-numeric keys that the clients use is
    the order in which the entries were inserted; no key sorting is
    applied. The query string can be read back into the pairs in that
    order, so two calls produce the same URL exactly when their mappings
    enumerate the same keys with the same values in the same order. *)
Theorem buildURL_enumeration_order (this : BaseAPIClient.t) (endpoint : string)
    (p1 p2 : Record_.t) :
  URLSearchParams.parse (URLSearchParams.toString (URLSearchParams.of_record p1))
  = URLSearchParams.of_record p1
  /\ (BaseAPIClient.buildURL this endpoint (Some p1)
      = BaseAPIClient.buildURL this endpoint (Some p2)
      <-> URLSearchParams.of_record p1 = URLSearchParams.of_record p2)
  /\ (forall l : list (string * Record_.pvalue),
        NoDup (map fst l) ->
        Forall (fun e => Record_.array_index (fst e) = None) l ->
        URLSearchParams.of_record (Record_.literal l)
        = map (fun '(k, v) => (k, Record_.to_string v)) l).
Proof.
  split; [apply parse_toString|]. split.
  - unfold BaseAPIClient.buildURL. split.
    + intros H. apply string_app_inv_head in H. simpl in H. injection H as H.
      rewrite <- (parse_toString (URLSearchParams.of_record p1)),
              <- (parse_toString (URLSearchParams.of_record p2)).
      by rewrite H.
    + by intros ->.
  - intros l Hnd Hnamed. unfold URLSearchParams.of_record.
    by rewrite (literal_distinct l Hnd), (entries_named l Hnamed).
Qed.

Lemma buildURL_enumeration_order_witness :
  URLSearchParams.of_record Samples.start_then_limit
  = [("start", "0"); ("limit", "20")]%string.
Proof.
  destruct (buildURL_enumeration_order Samples.demo_client ""
              Samples.limit_then_start Samples.start_then_limit)
    as (_ & _ & Hliteral).
  apply (Hliteral [("start"%string, Record_.PInteger 0);
                   ("limit"%string, Record_.PInteger 20)]).
  - constructor; [simpl; intros H; inversion H as [|? ? ? H']; inversion H'|].
    constructor; [intros H; inversion H|constructor].
  - repeat constructor.
Defined.

(** C9: whenever a query-parameter mapping is supplied (a non-empty one
    in particular), [buildURL] appends a [?] and the serialized
    parameters to the endpoint, whether or not the endpoint already holds
    a [?]: the URL has one [?] more than its base and endpoint, and the
    serialized parameters hold none. So a call that passes params to an
    endpoint of the form [/index.php?route=...], such as
    [getAllProducts], requests a URL with two [?] characters (beyond
    those of the base URL, which has none for the demo store). *)
Theorem buildURL_appends_question_mark (this : BaseAPIClient.t)
    (endpoint : string) (params : Record_.t) :
  BaseAPIClient.buildURL this endpoint (Some params)
  = ((BaseAPIClient.baseURL this ++ endpoint) ++ "?"
     ++ URLSearchParams.toString (URLSearchParams.of_record params))%string
  /\ occurrences "?" (BaseAPIClient.buildURL this endpoint (Some params))
     = (occurrences "?" (BaseAPIClient.baseURL this)
        + occurrences "?" endpoint + 1)%nat
  /\ (forall route : string,
        (2 <= occurrences "?"
                (BaseAPIClient.buildURL this ("/index.php?route=" ++ route)
                   (Some params)))%nat)
  /\ (forall listParams : option ProductsAPI.ListParams,
        occurrences "?" (ProductsAPI.getAllProducts id this listParams)
        = (occurrences "?" (BaseAPIClient.baseURL this) + 2)%nat)
  /\ occurrences "?" (ProductsAPI.getAllProducts id Samples.demo_client None) = 2%nat.
Proof.
  assert (Hcount : forall e p,
             occurrences "?" (BaseAPIClient.buildURL this e (Some p))
             = (occurrences "?" (BaseAPIClient.baseURL this)
                + occurrences "?" e + 1)%nat).
  { intros e p. unfold BaseAPIClient.buildURL.
    rewrite !occurrences_app, toString_no_question_mark. simpl. lia. }
  split; [reflexivity|]. split; [apply Hcount|]. split; [|split].
  - intros route. rewrite Hcount, occurrences_app. simpl. lia.
  - intros listParams. unfold ProductsAPI.getAllProducts, BaseAPIClient.get, id.
    rewrite Hcount. simpl. lia.
  - reflexivity.
Qed.

(** ** More on [retry] *)

Section RetryRuns.
Import JS TestHelpers.
Context {S T : Type}.
Variable action : S -> S * settled T.

(** Among the first [n] invocations either all fail or there is a first
    one that succeeds. *)
Lemma first_success (n : nat) (s : S) :
  fails_first action n s
  \/ exists k v, (k < n)%nat /\ fails_first action k s
       /\ snd (action (state_after action k s)) = Resolved v.
Proof.
  induction n as [|n IH].
  - left. intros i Hi. lia.
  - destruct IH as [Hall|(k & v & Hk & Hfail & Hok)].
    + destruct (snd (action (state_after action n s))) as [v|e] eqn:Hn.
      * right. exists n, v. split; [lia|]. split; done.
      * left. intros i Hi. destruct (decide (i = n)) as [->|Hne].
        -- by exists e.
        -- apply Hall. lia.
    + right. exists k, v. split; [lia|]. split; done.
Qed.

End RetryRuns.

(** X1: every run of [retry] with [maxAttempts >= 1] has one of two
    shapes, whatever the action does. Either some invocation [k <
    maxAttempts] is the first to succeed, and then [retry] returns its
    value; or all [maxAttempts] invocations fail, and then it throws the
    error of the last. In both cases the log is [k] failed attempts, each
    followed by one delay of [delayMs], and a final invocation: the delay
    is never awaited after the last attempt, and no invocation follows a
    success. *)
Theorem retry_run_shape {S T : Type} (action : S -> S * JS.settled T)
    (N delayMs : Z) (s s' : S) (log : list TestHelpers.event)
    (out : JS.completion T) :
  1 <= N ->
  TestHelpers.retry action N delayMs s = Some (s', log, out) ->
  exists k : nat,
    Z.of_nat k < N
    /\ TestHelpers.fails_first action k s
    /\ log = TestHelpers.failed_attempts delayMs k ++ [TestHelpers.Invoked]
    /\ s' = TestHelpers.state_after action (Datatypes.S k) s
    /\ match out with
       | JS.Return v =>
           snd (action (TestHelpers.state_after action k s)) = JS.Resolved v
       | JS.Throw e =>
           snd (action (TestHelpers.state_after action k s)) = JS.Rejected e
           /\ Z.of_nat k = N - 1
       end.
Proof.
  intros HN Hrun. unfold TestHelpers.retry in Hrun.
  destruct (first_success action (Z.to_nat N) s)
    as [Hall|(k & v & Hk & Hfail & Hok)].
  - destruct (Z.to_nat N) as [|m] eqn:Hm; [lia|].
    destruct (retry_loop_exhausted action N delayMs m (Datatypes.S m) 1
                JS.VUndefined s []) as (last & Hlast & Hrun');
      [lia|lia|done|].
    rewrite Hrun' in Hrun. injection Hrun as <- <- <-.
    exists m. split; [lia|]. split.
    { intros i Hi. apply Hall. lia. }
    split; [done|]. split; [done|]. split; [done|lia].
  - rewrite (retry_loop_success action N delayMs k v) in Hrun;
      [|lia|lia|done|done].
    injection Hrun as <- <- <-.
    exists k. split; [lia|]. by repeat split.
Qed.

Lemma retry_run_shape_witness :
  exists k : nat,
    Z.of_nat k < 3
    /\ TestHelpers.fails_first (Samples.flaky 1) k 0%nat
    /\ [TestHelpers.Invoked; TestHelpers.Slept 100; TestHelpers.Invoked]
       = TestHelpers.failed_attempts 100 k ++ [TestHelpers.Invoked]
    /\ 2%nat = TestHelpers.state_after (Samples.flaky 1) (Datatypes.S k) 0%nat
    /\ snd (Samples.flaky 1 (TestHelpers.state_after (Samples.flaky 1) k 0%nat))
       = JS.Resolved "ok"%string.
Proof.
  apply (retry_run_shape (Samples.flaky 1) 3 100 0%nat 2%nat
           [TestHelpers.Invoked; TestHelpers.Slept 100; TestHelpers.Invoked]
           (JS.Return "ok"%string)); [lia|reflexivity].
Defined.

(** ** More on [waitForCondition] *)

Section PollingRuns.
Import JS APITestUtils Polling.
Context {S : Type}.
Variable condition : world S -> world S * settled bool.
Variables timeout interval : Z.


End PollingRuns.



(** ** [waitForCondition] under a clock that runs on its own *)

Section RealTimeRuns.
Import JS APITestUtils.
Context {S : Type}.
Variable condition : world S -> world S * settled bool.
Variable between_reads : world S -> world S.
Variable timer : Z -> world S -> world S.
Variables timeout interval : Z.

(** Once the time is up the loop is left with the timeout error. *)
Lemma real_poll_elapsed (fuel : nat) (startTime : Z) (w : world S)
    (log : list event) :
  timeout <= now w - startTime ->
  RealTime.poll condition timer timeout interval fuel startTime w log
  = Some (w, log, Throw (timeout_error timeout)).
Proof.
  intros H. destruct fuel; simpl;
    destruct (now w - startTime <? timeout) eqn:E; try done; lia.
Qed.

(** A run only adds to the log. *)
Lemma real_poll_log (fuel : nat) :
  forall (startTime : Z) (w w' : world S) (log log' : list event)
         (out : completion unit),
    RealTime.poll condition timer timeout interval fuel startTime w log
    = Some (w', log', out) ->
    exists rest, log' = log ++ rest.
Proof.
  induction fuel as [|fuel IH]; intros startTime w w' log log' out; simpl;
    destruct (now w - startTime <? timeout); try done.
  - intros [= <- <- <-]. exists []. by rewrite app_nil_r.
  - destruct (condition w) as [w1 [[|]|e]].
    + intros [= <- <- <-]. by exists [Evaluated].
    + intros H. apply IH in H as [rest ->].
      exists ([Evaluated; Slept interval] ++ rest). by rewrite <- app_assoc.
    + intros [= <- <- <-]. by exists [Evaluated].
  - intros [= <- <- <-]. exists []. by rewrite app_nil_r.
Qed.

(** A loop that is entered in time begins with an evaluation. *)
Lemma real_poll_first_evaluation (fuel : nat) (startTime : Z) (w w' : world S)
    (log log' : list event) (out : completion unit) :
  now w - startTime < timeout ->
  RealTime.poll condition timer timeout interval fuel startTime w log
  = Some (w', log', out) ->
  exists rest, log' = log ++ Evaluated :: rest.
Proof.
  intros Hin. destruct fuel as [|fuel]; simpl;
    (destruct (now w - startTime <? timeout) eqn:E; [|lia]); [done|].
  destruct (condition w) as [w1 [[|]|e]].
  - intros [= <- <- <-]. by exists [].
  - intros H. apply real_poll_log in H as [rest ->].
    exists (Slept interval :: rest). by rewrite <- app_assoc.
  - intros [= <- <- <-]. by exists [].
Qed.

(** With evaluations that take between 0 and [d] milliseconds and waits
    that take between [lo >= 1] and [hi], the loop ends, and the clock
    and the outcome at its end are bounded. *)
Lemma real_poll_run (d lo hi : Z) :
  1 <= lo ->
  (forall w, now w <= now (fst (condition w)) <= now w + d) ->
  (forall w, now w + lo <= now (timer interval w) <= now w + hi) ->
  forall (fuel : nat) (startTime : Z) (w : world S) (log : list event),
    (Z.to_nat (timeout - (now w - startTime)) <= fuel)%nat ->
    exists w' log' out,
      RealTime.poll condition timer timeout interval fuel startTime w log
      = Some (w', log', out)
      /\ now w' <= Z.max (now w) (startTime + timeout - 1 + d + hi)
      /\ ((forall w0 e, snd (condition w0) <> Rejected e) ->
          forall e, out = Throw e ->
            e = timeout_error timeout /\ timeout <= now w' - startTime).
Proof.
  intros Hlo Hd Ht.
  induction fuel as [|fuel IH]; intros startTime w log Hfuel; simpl;
    destruct (Z.ltb_spec (now w - startTime) timeout) as [E|E]; try lia.
  - exists w, log, (Throw (timeout_error timeout)).
    split; [done|]. split; [lia|]. intros _ e [= <-]. split; [done|lia].
  - pose proof (Hd w) as Hw. pose proof (Ht w) as Hhi.
    destruct (condition w) as [w1 [[|]|e1]] eqn:Hc; simpl in Hw.
    + exists w1, (log ++ [Evaluated]), (Return tt).
      split; [done|]. split; [lia|]. by intros _ e.
    + pose proof (Ht w1) as Hw1.
      destruct (IH startTime (timer interval w1)
                  (log ++ [Evaluated; Slept interval]) ltac:(lia))
        as (w' & log' & out & Hrun & Hclock & Hout).
      exists w', log', out. split; [done|]. split; [lia|done].
    + exists w1, (log ++ [Evaluated]), (Throw e1).
      split; [done|]. split; [lia|].
      intros Hnothrow. specialize (Hnothrow w e1). rewrite Hc in Hnothrow.
      by destruct Hnothrow.
  - exists w, log, (Throw (timeout_error timeout)).
    split; [done|]. split; [lia|]. intros _ e [= <-]. split; [done|lia].
Qed.

(** The run of [APITestUtils] is the one in which no time passes
    between the two readings of the clock and every timer fires exactly
    on time. *)
Lemma waitForCondition_exact_timers (fuel : nat) (w : world S) :
  RealTime.waitForCondition condition (fun w => w) sleep timeout interval fuel w
  = APITestUtils.waitForCondition condition timeout interval fuel w.
Proof. reflexivity. Qed.

End RealTimeRuns.

(** X3: [waitForCondition] evaluates the predicate at least once exactly
    when less than [timeout] milliseconds pass between its two first
    readings of the clock, the one of [startTime] and the one of the
    first loop test. Otherwise it fails with the timeout error at once,
    without a single evaluation, even when the predicate holds: so it
    does for every [timeout <= 0] when the clock does not run backwards
    between the two readings, and so it can for a small positive
    [timeout]. *)
Theorem waitForCondition_first_evaluation {S : Type}
    (condition : APITestUtils.world S -> APITestUtils.world S * JS.settled bool)
    (between_reads : APITestUtils.world S -> APITestUtils.world S)
    (timer : Z -> APITestUtils.world S -> APITestUtils.world S)
    (timeout interval : Z) (w : APITestUtils.world S) :
  (Z.abs timeout < 2 ^ 53 ->
   timeout <= APITestUtils.now (between_reads w) - APITestUtils.now w ->
   forall fuel,
     RealTime.waitForCondition condition between_reads timer timeout interval
       fuel w
     = Some (between_reads w, [],
             JS.Throw (APITestUtils.timeout_error timeout)))
  /\ (APITestUtils.now (between_reads w) - APITestUtils.now w < timeout ->
      forall fuel w' log out,
        RealTime.waitForCondition condition between_reads timer timeout
          interval fuel w
        = Some (w', log, out) ->
        exists rest, log = APITestUtils.Evaluated :: rest)
  /\ (Z.abs timeout < 2 ^ 53 -> timeout <= 0 ->
      APITestUtils.now w <= APITestUtils.now (between_reads w) ->
      forall fuel,
        RealTime.waitForCondition condition between_reads timer timeout
          interval fuel w
        = Some (between_reads w, [],
                JS.Throw (APITestUtils.timeout_error timeout))).
Proof.
  unfold RealTime.waitForCondition. split; [|split].
  - intros _ Ht fuel. by apply real_poll_elapsed.
  - intros Ht fuel w' log out Hrun.
    by apply real_poll_first_evaluation in Hrun.
  - intros _ Ht Hb fuel. apply real_poll_elapsed. lia.
Qed.

Lemma waitForCondition_first_evaluation_witness :
  RealTime.waitForCondition Samples.always_true Samples.one_tick
    Samples.late_timer 1 500 7 (APITestUtils.World 0 tt)
  = Some (APITestUtils.World 1 tt, [],
          JS.Throw (JS.VError "Error" "Condition not met within 1ms")).
Proof.
  destruct (waitForCondition_first_evaluation Samples.always_true
              Samples.one_tick Samples.late_timer 1 500
              (APITestUtils.World 0 tt)) as [Hnone _].
  apply Hnone; [reflexivity|simpl; lia].
Defined.

(** X4: when [waitForCondition] ends. Let the clock not run backwards
    between the two first readings, an evaluation of the predicate take
    between 0 and [d] milliseconds by the clock, and a wait of
    [interval] between [lo >= 1] and [hi]. Then every run ends, after
    at most [timeout] evaluations, and no later than
    [timeout - 1 + d + hi] milliseconds after it started (or at the
    first loop test, if that is later); and when the predicate never
    throws, a run that fails does so with the timeout error and not
    before [timeout] milliseconds have passed. *)
Theorem waitForCondition_timing {S : Type}
    (condition : APITestUtils.world S -> APITestUtils.world S * JS.settled bool)
    (between_reads : APITestUtils.world S -> APITestUtils.world S)
    (timer : Z -> APITestUtils.world S -> APITestUtils.world S)
    (timeout interval d lo hi : Z) (w : APITestUtils.world S) (fuel : nat) :
  Z.abs timeout < 2 ^ 53 ->
  1 <= lo ->
  (forall w0, APITestUtils.now w0 <= APITestUtils.now (fst (condition w0))
              <= APITestUtils.now w0 + d) ->
  (forall w0, APITestUtils.now w0 + lo
              <= APITestUtils.now (timer interval w0)
              <= APITestUtils.now w0 + hi) ->
  APITestUtils.now w <= APITestUtils.now (between_reads w) ->
  (Z.to_nat timeout <= fuel)%nat ->
  exists w' log out,
    RealTime.waitForCondition condition between_reads timer timeout interval
      fuel w
    = Some (w', log, out)
    /\ APITestUtils.now w' - APITestUtils.now w
       <= Z.max (APITestUtils.now (between_reads w) - APITestUtils.now w)
                (timeout - 1 + d + hi)
    /\ ((forall w0 e, snd (condition w0) <> JS.Rejected e) ->
        forall e, out = JS.Throw e ->
          e = APITestUtils.timeout_error timeout
          /\ timeout <= APITestUtils.now w' - APITestUtils.now w).
Proof.
  intros _ Hlo Hd Ht Hb Hfuel. unfold RealTime.waitForCondition.
  destruct (real_poll_run condition timer timeout interval d lo hi Hlo Hd Ht
              fuel (APITestUtils.now w) (between_reads w) [] ltac:(lia))
    as (w' & log & out & Hrun & Hclock & Hout).
  exists w', log, out. split; [done|]. split; [lia|done].
Qed.

Lemma waitForCondition_timing_witness :
  exists w' log out,
    RealTime.waitForCondition Samples.never_condition Samples.one_tick
      Samples.late_timer 1000 500 1000 (APITestUtils.World 0 tt)
    = Some (w', log, out)
    /\ APITestUtils.now w' - 0 <= Z.max (1 - 0) (1000 - 1 + 0 + 502)
    /\ ((forall w0 e, snd (Samples.never_condition w0) <> JS.Rejected e) ->
        forall e, out = JS.Throw e ->
          e = APITestUtils.timeout_error 1000
          /\ 1000 <= APITestUtils.now w' - 0).
Proof.
  apply (waitForCondition_timing Samples.never_condition Samples.one_tick
           Samples.late_timer 1000 500 0 502 502 (APITestUtils.World 0 tt)
           1000).
  - reflexivity.
  - lia.
  - intros w0. simpl. lia.
  - intros w0. unfold Samples.late_timer. simpl. lia.
  - simpl. lia.
  - lia.
Defined.

(** ** More on [createPerformanceMetrics] *)

Section MetricsMore.
Import JS APITestUtils.


(** X5: for a non-empty array the three order statistics are defined and
    are samples of the input: [min], [max] and [median] are never
    [undefined] and never a value that the caller did not pass. *)
Theorem createPerformanceMetrics_fields_are_samples (r : ref) (h : heap)
    (a : list number) :
  h !! r = Some a -> a <> [] ->
  let m := snd (createPerformanceMetrics r h) in
  exists x y z,
    min m = Some x /\ max m = Some y /\ median m = Some z
    /\ x ∈ a /\ y ∈ a /\ z ∈ a.
Proof.
  intros Hr Hne m. unfold m.
  rewrite (createPerformanceMetrics_eq r h a Hr). simpl.
  set (sorted := sort (fun a b => a - b)%float a).
  assert (Hperm : sorted ≡ₚ a) by apply sort_perm.
  assert (Hlen : (0 < length sorted)%nat).
  { rewrite (Permutation_length Hperm). destruct a; [done|simpl; lia]. }
  assert (Hget : forall i : Z, 0 <= i < Z.of_nat (length sorted) ->
            exists v, get sorted i = Some v /\ v ∈ a).
  { intros i Hi. unfold get. destruct (i <? 0) eqn:E; [lia|].
    destruct (lookup_lt_is_Some_2 sorted (Z.to_nat i)) as [v Hv]; [lia|].
    exists v. split; [done|]. rewrite <- Hperm. by eapply list_elem_of_lookup_2. }
  destruct (Hget 0) as (x & Hx & Hxa); [lia|].
  destruct (Hget (Z.of_nat (length sorted) - 1)) as (y & Hy & Hya); [lia|].
  destruct (Hget (Z.of_nat (length sorted) / 2)) as (z & Hz & Hza).
  { split; [apply Z.div_pos; lia|]. apply Z.div_lt_upper_bound; lia. }
  by exists x, y, z.
Qed.

Lemma createPerformanceMetrics_fields_are_samples_witness :
  exists x y z,
    min (snd (createPerformanceMetrics 0%nat [[3; 1; 2]%float])) = Some x
    /\ max (snd (createPerformanceMetrics 0%nat [[3; 1; 2]%float])) = Some y
    /\ median (snd (createPerformanceMetrics 0%nat [[3; 1; 2]%float])) = Some z
    /\ x ∈ [3; 1; 2]%float /\ y ∈ [3; 1; 2]%float /\ z ∈ [3; 1; 2]%float.
Proof.
  apply (createPerformanceMetrics_fields_are_samples 0%nat [[3; 1; 2]%float]
           [3; 1; 2]%float); [reflexivity|discriminate].
Defined.

(** X6: summarising the same array a second time changes nothing more:
    the second call returns the same metrics as the first and leaves the
    heap as the first call left it. *)
Theorem createPerformanceMetrics_twice (r : ref) (h : heap) (a : list number) :
  h !! r = Some a ->
  createPerformanceMetrics r (fst (createPerformanceMetrics r h))
  = createPerformanceMetrics r h.
Proof.
  intros Hr.
  assert (Hlt : (r < length h)%nat) by (eapply lookup_lt_Some; eauto).
  rewrite (createPerformanceMetrics_eq r h a Hr). simpl.
  set (sorted := sort (fun a b => a - b)%float a).
  rewrite (createPerformanceMetrics_eq r (<[r := sorted]> h) sorted)
    by (by apply list_lookup_insert_eq).
  simpl. rewrite (sort_sorted_id _ sorted) by apply sort_numbers_sorted.
  by rewrite list_insert_insert_eq.
Qed.

Lemma createPerformanceMetrics_twice_witness :
  createPerformanceMetrics 0%nat
    (fst (createPerformanceMetrics 0%nat [[3; 1; 2]%float]))
  = createPerformanceMetrics 0%nat [[3; 1; 2]%float].
Proof.
  apply (createPerformanceMetrics_twice 0%nat [[3; 1; 2]%float] [3; 1; 2]%float).
  reflexivity.
Defined.

End MetricsMore.

(** ** [validateRateLimiting] and [validateArrayResponse] *)

Section RateLimiting.
Import JS TestHelpers APITestUtilsMore.
Context {S : Type}.
Variable expect_error : option string -> value.
Variable apiCall : S -> S * settled Response.
Variables maxRequests expectedStatus : Z.

(** [n] calls are left and all of them resolve. *)
Lemma request_loop_resolved (n : nat) :
  forall (fuel : nat) (i : Z) (responses : list Response) (s : S) (calls : nat),
    i + Z.of_nat n = maxRequests + 1 -> (n <= fuel)%nat ->
    (forall j, (j < n)%nat ->
       exists r, snd (apiCall (state_after apiCall j s)) = Resolved r) ->
    exists rs,
      request_loop apiCall maxRequests fuel i responses s calls
      = Some (state_after apiCall n s, (calls + n)%nat, Return (responses ++ rs))
      /\ length rs = n
      /\ forall j r, snd (apiCall (state_after apiCall j s)) = Resolved r ->
           (j < n)%nat -> rs !! j = Some r.
Proof.
  induction n as [|n IH]; intros fuel i responses s calls Hi Hfuel Hall.
  - exists []. rewrite app_nil_r, Nat.add_0_r. split; [|split; [done|lia]].
    destruct fuel; simpl; destruct (i <? maxRequests + 1) eqn:E; try done; lia.
  - destruct fuel as [|fuel]; [lia|]. simpl.
    destruct (i <? maxRequests + 1) eqn:E; [|lia].
    destruct (Hall O) as [r0 Hr0]; [lia|]. simpl in Hr0.
    assert (Hall' : forall j, (j < n)%nat ->
              exists r, snd (apiCall (state_after apiCall j (fst (apiCall s))))
                        = Resolved r)
      by (intros j Hj; apply (Hall (Datatypes.S j)); lia).
    destruct (apiCall s) as [s1 r] eqn:Hcall. simpl in Hr0, Hall'. subst r.
    destruct (IH fuel (i + 1) (responses ++ [r0]) s1 (Datatypes.S calls))
      as (rs & Hrun & Hlen & Hrs); [lia|lia|done|].
    exists (r0 :: rs). split; [|split].
    + rewrite Hrun. simpl. rewrite <- app_assoc. do 3 f_equal. lia.
    + simpl. lia.
    + intros [|j] r Hr Hj; simpl in *.
      * rewrite Hcall in Hr. simpl in Hr. congruence.
      * rewrite Hcall in Hr. simpl in Hr. apply Hrs; [done|lia].
Qed.

(** [k] calls resolve and the next rejects. *)
Lemma request_loop_rejected (k : nat) (e : value) :
  forall (fuel : nat) (i : Z) (responses : list Response) (s : S) (calls : nat),
    i + Z.of_nat k < maxRequests + 1 -> (k < fuel)%nat ->
    (forall j, (j < k)%nat ->
       exists r, snd (apiCall (state_after apiCall j s)) = Resolved r) ->
    snd (apiCall (state_after apiCall k s)) = Rejected e ->
    request_loop apiCall maxRequests fuel i responses s calls
    = Some (state_after apiCall (Datatypes.S k) s,
            (calls + Datatypes.S k)%nat, Throw e).
Proof.
  induction k as [|k IH]; intros fuel i responses s calls Hi Hfuel Hall Hrej;
    (destruct fuel as [|fuel]; [lia|]); simpl;
    (destruct (i <? maxRequests + 1) eqn:E; [|lia]).
  - simpl in Hrej. destruct (apiCall s) as [s1 r]. simpl in *. subst r.
    do 3 f_equal. lia.
  - destruct (Hall O) as [r0 Hr0]; [lia|]. simpl in Hr0, Hrej.
    assert (Hall' : forall j, (j < k)%nat ->
              exists r, snd (apiCall (state_after apiCall j (fst (apiCall s))))
                        = Resolved r)
      by (intros j Hj; apply (Hall (Datatypes.S j)); lia).
    destruct (apiCall s) as [s1 r]. simpl in *. subst r.
    rewrite (IH fuel (i + 1) (responses ++ [r0]) s1 (Datatypes.S calls));
      [|lia|lia|done|done].
    do 3 f_equal. lia.
Qed.

End RateLimiting.

(** X7: with [maxRequests >= 0] and calls that all resolve,
    [validateRateLimiting] makes exactly [maxRequests + 1] calls and then
    judges by the status of the last response alone: it returns when
    that status is [expectedStatus] and throws the assertion error
    otherwise. The statuses of the earlier responses play no part. *)
Theorem validateRateLimiting_judges_last {S : Type}
    (expect_error : option string -> JS.value)
    (apiCall : S -> S * JS.settled APITestUtilsMore.Response)
    (maxRequests expectedStatus : Z) (s : S)
    (last : APITestUtilsMore.Response) :
  0 <= maxRequests ->
  (forall j, (j <= Z.to_nat maxRequests)%nat ->
     exists r, snd (apiCall (TestHelpers.state_after apiCall j s))
               = JS.Resolved r) ->
  snd (apiCall (TestHelpers.state_after apiCall (Z.to_nat maxRequests) s))
  = JS.Resolved last ->
  APITestUtilsMore.validateRateLimiting expect_error apiCall maxRequests
    expectedStatus s
  = Some (TestHelpers.state_after apiCall (Datatypes.S (Z.to_nat maxRequests)) s,
          Datatypes.S (Z.to_nat maxRequests),
          if APITestUtilsMore.status last =? expectedStatus
          then JS.Return tt else JS.Throw (expect_error None)).
Proof.
  intros Hmax Hall Hlast. unfold APITestUtilsMore.validateRateLimiting.
  replace (Z.to_nat (maxRequests + 1)) with (Datatypes.S (Z.to_nat maxRequests))
    by lia.
  destruct (request_loop_resolved apiCall maxRequests
              (Datatypes.S (Z.to_nat maxRequests))
              (Datatypes.S (Z.to_nat maxRequests)) 0 [] s O)
    as (rs & Hrun & Hlen & Hrs); [lia|lia| |].
  { intros j Hj. apply Hall. lia. }
  rewrite Hrun. unfold APITestUtilsMore.and_then. rewrite app_nil_l.
  change (0 + Datatypes.S (Z.to_nat maxRequests))%nat
    with (Datatypes.S (Z.to_nat maxRequests)).
  do 2 f_equal.
  unfold APITestUtilsMore.at_index. rewrite Hlen.
  destruct (Z.of_nat (Datatypes.S (Z.to_nat maxRequests)) - 1 <? 0) eqn:E.
  { apply Z.ltb_lt in E. lia. }
  replace (Z.to_nat (Z.of_nat (Datatypes.S (Z.to_nat maxRequests)) - 1))
    with (Z.to_nat maxRequests) by lia.
  rewrite (Hrs (Z.to_nat maxRequests) last Hlast) by lia.
  reflexivity.
Qed.

Lemma validateRateLimiting_judges_last_witness :
  APITestUtilsMore.validateRateLimiting Samples.assertion_failed
    (Samples.limited_after 2) 2 429 0%nat
  = Some (3%nat, 3%nat, JS.Return tt).
Proof.
  apply (validateRateLimiting_judges_last Samples.assertion_failed
           (Samples.limited_after 2) 2 429 0%nat
           {| APITestUtilsMore.status := 429 |}).
  - lia.
  - intros j Hj. eexists. reflexivity.
  - reflexivity.
Defined.

(** X8: if one of the [maxRequests + 1] calls rejects, the earlier ones
    having resolved, [validateRateLimiting] rejects with the same error
    right after that call: no further call is made and no status is
    checked. *)
Theorem validateRateLimiting_propagates_rejection {S : Type}
    (expect_error : option string -> JS.value)
    (apiCall : S -> S * JS.settled APITestUtilsMore.Response)
    (maxRequests expectedStatus : Z) (s : S) (k : nat) (e : JS.value) :
  Z.of_nat k <= maxRequests ->
  (forall j, (j < k)%nat ->
     exists r, snd (apiCall (TestHelpers.state_after apiCall j s))
               = JS.Resolved r) ->
  snd (apiCall (TestHelpers.state_after apiCall k s)) = JS.Rejected e ->
  APITestUtilsMore.validateRateLimiting expect_error apiCall maxRequests
    expectedStatus s
  = Some (TestHelpers.state_after apiCall (Datatypes.S k) s, Datatypes.S k,
          JS.Throw e).
Proof.
  intros Hk Hall Hrej. unfold APITestUtilsMore.validateRateLimiting.
  by rewrite (request_loop_rejected apiCall maxRequests k e); [|lia|lia|done|done].
Qed.

Lemma validateRateLimiting_propagates_rejection_witness :
  APITestUtilsMore.validateRateLimiting Samples.assertion_failed
    (Samples.down_after 1) 5 429 0%nat
  = Some (2%nat, 2%nat, JS.Throw (JS.VError "Error" "socket hang up")).
Proof.
  apply (validateRateLimiting_propagates_rejection Samples.assertion_failed
           (Samples.down_after 1) 5 429 0%nat 1).
  - lia.
  - intros [|j] Hj; [eexists; reflexivity|lia].
  - reflexivity.
Defined.

(** X9: called with [maxRequests < 0], [validateRateLimiting] makes no
    call at all and ends with a TypeError, not with an assertion
    failure: it reads [status] on the [undefined] last element of an
    empty array. *)
Theorem validateRateLimiting_without_requests {S : Type}
    (expect_error : option string -> JS.value)
    (apiCall : S -> S * JS.settled APITestUtilsMore.Response)
    (maxRequests expectedStatus : Z) (s : S) :
  maxRequests < 0 ->
  exists e,
    APITestUtilsMore.validateRateLimiting expect_error apiCall maxRequests
      expectedStatus s
    = Some (s, O, JS.Throw e)
    /\ JS.instance_of "TypeError" e = true.
Proof.
  intros Hmax. exists (APITestUtilsMore.type_error_reading "undefined" "status").
  split; [|reflexivity].
  unfold APITestUtilsMore.validateRateLimiting.
  replace (Z.to_nat (maxRequests + 1)) with O by lia. simpl.
  destruct (0 <? maxRequests + 1) eqn:E; [lia|]. reflexivity.
Qed.

Lemma validateRateLimiting_without_requests_witness :
  exists e,
    APITestUtilsMore.validateRateLimiting Samples.assertion_failed
      (Samples.limited_after 2) (-1) 429 0%nat
    = Some (0%nat, O, JS.Throw e)
    /\ JS.instance_of "TypeError" e = true.
Proof.
  apply (validateRateLimiting_without_requests Samples.assertion_failed
           (Samples.limited_after 2) (-1) 429 0%nat).
  lia.
Defined.

(** X10: on a response whose body parses, [validateArrayResponse]
    returns normally exactly when the body is an array whose length
    respects each bound that is given; a bound of [0] is a bound like any
    other, and only an absent bound is skipped. *)
Theorem validateArrayResponse_passes_iff
    (expect_error : option string -> JS.value) (body : Json.t)
    (minLength maxLength : option Z) :
  APITestUtilsMore.validateArrayResponse expect_error (JS.Resolved body)
    minLength maxLength = JS.Return tt
  <-> exists items,
        body = Json.JArray items
        /\ (forall m, minLength = Some m -> m <= Z.of_nat (length items))
        /\ (forall m, maxLength = Some m -> Z.of_nat (length items) <= m).
Proof.
  unfold APITestUtilsMore.validateArrayResponse,
    APITestUtilsMore.expect_toBeTruthy,
    APITestUtilsMore.expect_toBeGreaterThanOrEqual,
    APITestUtilsMore.expect_toBeLessThanOrEqual.
  split.
  - destruct body as [| | | |items|]; simpl; try done.
    intros H. exists items. split; [done|].
    destruct minLength as [m|]; simpl in H.
    + destruct (m <=? Z.of_nat (length items)) eqn:Em; [|done]. simpl in H.
      split; [intros ? [= <-]; lia|].
      destruct maxLength as [M|]; [|done].
      destruct (Z.of_nat (length items) <=? M) eqn:EM; [|done].
      intros ? [= <-]. lia.
    + split; [done|].
      destruct maxLength as [M|]; [|done].
      destruct (Z.of_nat (length items) <=? M) eqn:EM; [|done].
      intros ? [= <-]. lia.
  - intros (items & -> & Hmin & Hmax). simpl.
    destruct minLength as [m|]; simpl.
    + specialize (Hmin m eq_refl).
      destruct (m <=? Z.of_nat (length items)) eqn:Em; [|lia]. simpl.
      destruct maxLength as [M|]; [|done]. specialize (Hmax M eq_refl).
      destruct (Z.of_nat (length items) <=? M) eqn:EM; [done|lia].
    + destruct maxLength as [M|]; [|done]. specialize (Hmax M eq_refl).
      destruct (Z.of_nat (length items) <=? M) eqn:EM; [done|lia].
Qed.

Lemma validateArrayResponse_passes_iff_witness :
  APITestUtilsMore.validateArrayResponse Samples.assertion_failed
    (JS.Resolved (Json.JArray [Json.JNull; Json.JBool true])) (Some 0) (Some 5)
  = JS.Return tt.
Proof.
  apply (validateArrayResponse_passes_iff Samples.assertion_failed
           (Json.JArray [Json.JNull; Json.JBool true]) (Some 0) (Some 5)).
  exists [Json.JNull; Json.JBool true].
  split; [reflexivity|]. split; intros m [= <-]; simpl; lia.
Defined.

(** ** [extractNestedValue] and [extractValue] *)

Section PathLemmas.
Import JS APITestUtilsMore BaseAPIClientMore.
Variable W : Type.
Variable get : W -> string -> jsval W.

Lemma reduce_undefined (keys : list string) :
  reduce (optional_get W get) Undefined keys = Undefined.
Proof. unfold reduce. induction keys as [|k keys IH]; simpl; done. Qed.

Lemma reduce_null (keys : list string) :
  keys <> [] -> reduce (optional_get W get) Null keys = Undefined.
Proof.
  destruct keys as [|k keys]; [done|]. intros _. apply reduce_undefined.
Qed.

Lemma extract_loop_agrees (keys : list string) :
  forall value,
    match extract_loop W get value keys with
    | Return v => reduce (optional_get W get) value keys = v
    | Throw e =>
        reduce (optional_get W get) value keys = Undefined
        /\ instance_of "TypeError" e = true
    end.
Proof.
  induction keys as [|key keys IH]; intros value; simpl; [done|].
  destruct value as [| |w]; simpl.
  - split; [apply reduce_undefined|done].
  - split; [apply reduce_undefined|done].
  - unfold reduce in *. simpl. specialize (IH (get w key)).
    destruct (get w key) as [| |w'] eqn:Hg; simpl in *.
    + apply reduce_undefined.
    + exact IH.
    + exact IH.
Qed.

Lemma split_nonempty (sep : ascii) (s : string) : URLSearchParams.split sep s <> [].
Proof.
  destruct s as [|c s]; simpl; [done|].
  destruct (Ascii.eqb c sep); [done|].
  by destruct (URLSearchParams.split sep s).
Qed.

Lemma split_append (sep : ascii) (a b : string) :
  URLSearchParams.split sep (a ++ String sep b)
  = URLSearchParams.split sep a ++ URLSearchParams.split sep b.
Proof.
  induction a as [|x a IH]; simpl.
  - by rewrite Ascii.eqb_refl.
  - destruct (Ascii.eqb x sep); [by rewrite IH|].
    rewrite IH. pose proof (split_nonempty sep a) as Hne.
    by destruct (URLSearchParams.split sep a).
Qed.

End PathLemmas.

(** X11: [BaseAPIClient.extractValue] and
    [APITestUtils.extractNestedValue] walk a dotted path alike. Whenever
    [extractValue] returns a value, [extractNestedValue] returns the same
    value for the same body and path; and where [extractValue] throws (a
    TypeError, on reading a property of [null] or [undefined]),
    [extractNestedValue] returns [undefined] instead. *)
Theorem extractValue_agrees_with_extractNestedValue (W : Type)
    (get : W -> string -> APITestUtilsMore.jsval W)
    (body : APITestUtilsMore.jsval W) (path : string) :
  match BaseAPIClientMore.extractValue W get (JS.Resolved body) path with
  | JS.Return v => APITestUtilsMore.extractNestedValue W get body path = v
  | JS.Throw e =>
      APITestUtilsMore.extractNestedValue W get body path
      = APITestUtilsMore.Undefined
      /\ JS.instance_of "TypeError" e = true
  end.
Proof.
  unfold BaseAPIClientMore.extractValue, APITestUtilsMore.extractNestedValue.
  apply extract_loop_agrees.
Qed.

(** X12: paths compose. Walking [p.q] is walking [p] and then walking
    [q] from the value reached; in particular, once a prefix of the path
    leads to [undefined], [extractNestedValue] returns [undefined]
    whatever follows, and never throws. *)
Theorem extractNestedValue_composes (W : Type)
    (get : W -> string -> APITestUtilsMore.jsval W)
    (obj : APITestUtilsMore.jsval W) (p q : string) :
  APITestUtilsMore.extractNestedValue W get obj (p ++ String "." q)
  = APITestUtilsMore.extractNestedValue W get
      (APITestUtilsMore.extractNestedValue W get obj p) q
  /\ (APITestUtilsMore.extractNestedValue W get obj p
      = APITestUtilsMore.Undefined ->
      APITestUtilsMore.extractNestedValue W get obj (p ++ String "." q)
      = APITestUtilsMore.Undefined).
Proof.
  assert (Hcomp : APITestUtilsMore.extractNestedValue W get obj (p ++ String "." q)
                  = APITestUtilsMore.extractNestedValue W get
                      (APITestUtilsMore.extractNestedValue W get obj p) q).
  { unfold APITestUtilsMore.extractNestedValue, JS.reduce.
    by rewrite split_append, fold_left_app. }
  split; [done|]. intros Hp. rewrite Hcomp, Hp.
  apply reduce_undefined.
Qed.

Lemma extractNestedValue_composes_witness :
  APITestUtilsMore.extractNestedValue Json.t Samples.own_property
    (APITestUtilsMore.Val Samples.order_body) ("customer" ++ String "." "name")
  = APITestUtilsMore.Undefined.
Proof.
  apply (extractNestedValue_composes Json.t Samples.own_property
           (APITestUtilsMore.Val Samples.order_body) "customer" "name").
  reflexivity.
Defined.

(** ** [filterObject] *)

Section Filtering.
Import Json APITestUtilsMore.

Lemma includes_true (keys : list string) (k : string) :
  k ∈ keys -> includes keys k = true.
Proof.
  unfold includes. induction 1 as [k keys|k k' keys Hin IH]; simpl.
  - by rewrite String.eqb_refl.
  - rewrite IH. apply orb_true_r.
Qed.

End Filtering.

Section FilteringLemmas.
Import Json APITestUtilsMore.
Variable keysToIgnore : list string.

Lemma filterObject_all_keys (j : Json.t) :
  all_keys (kept keysToIgnore) (filterObject j keysToIgnore) = true.
Proof.
  induction j as [| | | |items IH|fields IH] using Json.induction; simpl;
    try reflexivity.
  - induction IH as [|x items Hx _ IHitems]; simpl; [done|].
    by rewrite Hx, IHitems.
  - induction IH as [|[k v] fields Hv _ IHfields]; simpl; [done|].
    destruct (includes keysToIgnore k || String.eqb k "__proto__") eqn:E;
      [done|].
    simpl in *. unfold kept at 1. rewrite E. simpl. by rewrite Hv, IHfields.
Qed.

Lemma filterObject_id (j : Json.t) :
  all_keys (kept keysToIgnore) j = true -> filterObject j keysToIgnore = j.
Proof.
  induction j as [| | | |items IH|fields IH] using Json.induction; simpl;
    try reflexivity.
  - intros Hall. f_equal.
    induction IH as [|x items Hx _ IHitems]; simpl in *; [done|].
    apply andb_prop in Hall as [Hx' Hall]. by rewrite Hx, IHitems.
  - intros Hall. f_equal.
    induction IH as [|[k v] fields Hv _ IHfields]; simpl in *; [done|].
    apply andb_prop in Hall as [Hkv Hall]. apply andb_prop in Hkv as [Hk Hv'].
    unfold kept in Hk. apply negb_true_iff in Hk. rewrite Hk.
    by rewrite Hv, IHfields.
Qed.

Lemma all_keys_mentions (p : string -> bool) (k : string) (j : Json.t) :
  p k = false -> all_keys p j = true -> mentions k j = false.
Proof.
  intros Hk.
  induction j as [| | | |items IH|fields IH] using Json.induction; simpl;
    try reflexivity.
  - induction IH as [|x items Hx _ IHitems]; simpl; [done|].
    intros [Hx' Hall]%andb_prop. by rewrite Hx, IHitems.
  - induction IH as [|[k' v] fields Hv _ IHfields]; simpl; [done|].
    intros [[Hk' Hv']%andb_prop Hall]%andb_prop. simpl in *.
    rewrite Hv, IHfields by done.
    destruct (String.eqb k' k) eqn:E; [|done].
    apply String.eqb_eq in E. congruence.
Qed.

End FilteringLemmas.

(** X13: [filterObject] removes the ignored keys at every depth: in its
    result no object, however deeply nested in arrays and objects, has a
    key listed in [keysToIgnore]; nor a key named [__proto__], which the
    assignment [filtered[key] = ...] cannot create. *)
Theorem filterObject_drops_ignored_keys (obj : Json.t)
    (keysToIgnore : list string) (k : string) :
  k ∈ keysToIgnore \/ k = "__proto__"%string ->
  Json.mentions k (APITestUtilsMore.filterObject obj keysToIgnore) = false.
Proof.
  intros Hk.
  apply (all_keys_mentions (APITestUtilsMore.kept keysToIgnore));
    [|apply filterObject_all_keys].
  unfold APITestUtilsMore.kept. apply negb_false_iff.
  destruct Hk as [Hin| ->].
  - by rewrite (includes_true keysToIgnore k Hin).
  - apply orb_true_r.
Qed.

Lemma filterObject_drops_ignored_keys_witness :
  Json.mentions "id"
    (APITestUtilsMore.filterObject Samples.order_body ["id"; "createdAt"]%string)
  = false.
Proof.
  apply (filterObject_drops_ignored_keys Samples.order_body
           ["id"; "createdAt"]%string "id"%string).
  left. constructor.
Defined.

(** X14: [filterObject] is idempotent: filtering a filtered value again
    with the same keys gives the same value. *)
Theorem filterObject_idempotent (obj : Json.t) (keysToIgnore : list string) :
  APITestUtilsMore.filterObject
    (APITestUtilsMore.filterObject obj keysToIgnore) keysToIgnore
  = APITestUtilsMore.filterObject obj keysToIgnore.
Proof. apply filterObject_id, filterObject_all_keys. Qed.

(** X15: [filterObject] changes nothing but the ignored keys: a value in
    which no object at any depth has an ignored key (or a key named
    [__proto__]) comes back as it is, with every property, value and
    array item in place and in order. *)
Theorem filterObject_keeps_the_rest (obj : Json.t) (keysToIgnore : list string) :
  Json.all_keys (APITestUtilsMore.kept keysToIgnore) obj = true ->
  APITestUtilsMore.filterObject obj keysToIgnore = obj.
Proof. apply filterObject_id. Qed.

Lemma filterObject_keeps_the_rest_witness :
  APITestUtilsMore.filterObject Samples.order_body ["updatedAt"]%string
  = Samples.order_body.
Proof.
  apply (filterObject_keeps_the_rest Samples.order_body ["updatedAt"]%string).
  reflexivity.
Defined.

(** ** [extractSessionToken] *)

Section TextLemmas.
Import Text.

Lemma strip_prefix_Some (prefix s rest : string) :
  strip_prefix prefix s = Some rest -> s = (prefix ++ rest)%string.
Proof.
  revert s. induction prefix as [|c prefix IH]; intros s; simpl.
  - by intros [= ->].
  - destruct s as [|d s]; [done|].
    destruct (Ascii.eqb c d) eqn:E; [|done].
    apply Ascii.eqb_eq in E as ->. intros H. by rewrite (IH s H).
Qed.

Lemma strip_prefix_app (prefix rest : string) :
  strip_prefix prefix (prefix ++ rest) = Some rest.
Proof.
  induction prefix as [|c prefix IH]; simpl; [done|].
  by rewrite Ascii.eqb_refl.
Qed.

(** A string falls into its longest prefix within [p] and a rest that is
    empty or starts outside [p]. *)
Lemma take_while_split (p : ascii -> bool) (s : string) :
  exists rest,
    s = (take_while p s ++ rest)%string
    /\ all_chars p (take_while p s) = true
    /\ (rest = EmptyString \/ exists c r, rest = String c r /\ p c = false).
Proof.
  induction s as [|c s (rest & Hs & Hall & Hrest)]; simpl.
  - exists EmptyString. split; [done|]. split; [done|]. by left.
  - destruct (p c) eqn:E.
    + exists rest. simpl. rewrite E, Hall. split; [by rewrite <- Hs|done].
    + exists (String c s). split; [done|]. split; [done|].
      right. by exists c, s.
Qed.

Lemma take_while_app (p : ascii -> bool) (t rest : string) :
  all_chars p t = true ->
  (rest = EmptyString \/ exists c r, rest = String c r /\ p c = false) ->
  take_while p (t ++ rest) = t.
Proof.
  intros Ht Hrest. induction t as [|c t IH]; simpl in *.
  - destruct Hrest as [->|(c & r & -> & Hc)]; simpl; [done|]. by rewrite Hc.
  - apply andb_prop in Ht as [Hc Ht]. by rewrite Hc, IH.
Qed.

End TextLemmas.

(** X16: whatever [extractSessionToken] returns others than [null] is a
    cookie value of the header: a non-empty text without [;] that stands
    in the header right after an [OCSESSID=] and runs up to the next [;]
    or to the end. *)
Theorem extractSessionToken_sound (cookies token : string) :
  AuthAPI.extractSessionToken (Some cookies) = Some token ->
  token <> EmptyString
  /\ Text.all_chars Text.not_semicolon token = true
  /\ exists before after,
       cookies = (before ++ "OCSESSID=" ++ token ++ after)%string
       /\ (after = EmptyString \/ exists r, after = String ";" r).
Proof.
  unfold AuthAPI.extractSessionToken.
  assert (Hmatch : AuthAPI.match_OCSESSID cookies = Some token ->
            token <> EmptyString
            /\ Text.all_chars Text.not_semicolon token = true
            /\ exists before after,
                 cookies = (before ++ "OCSESSID=" ++ token ++ after)%string
                 /\ (after = EmptyString \/ exists r, after = String ";" r)).
  { induction cookies as [|c cookies IH].
    - simpl. done.
    - cbn [AuthAPI.match_OCSESSID].
      destruct (Text.strip_prefix "OCSESSID=" (String c cookies))
        as [rest|] eqn:Hstrip.
      + destruct (take_while_split Text.not_semicolon rest)
          as (after & Hrest & Hall & Hafter).
        destruct (Text.take_while Text.not_semicolon rest) as [|d t] eqn:Htake.
        * intros H. destruct (IH H) as (Hne & Hchars & before & after' & -> & Ha).
          split; [done|]. split; [done|]. by exists (String c before), after'.
        * intros [= <-]. split; [done|]. split; [done|].
          exists EmptyString, after. split.
          -- apply strip_prefix_Some in Hstrip. rewrite Hstrip. simpl.
             by rewrite Hrest at 1.
          -- destruct Hafter as [->|(x & r & -> & Hx)]; [by left|right].
             exists r. unfold Text.not_semicolon in Hx.
             apply negb_false_iff, Ascii.eqb_eq in Hx. by subst x.
      + intros H. destruct (IH H) as (Hne & Hchars & before & after' & -> & Ha).
        split; [done|]. split; [done|]. by exists (String c before), after'. }
  destruct cookies as [|c cookies]; [done|]. exact Hmatch.
Qed.

Lemma extractSessionToken_sound_witness :
  "abc123"%string <> EmptyString
  /\ Text.all_chars Text.not_semicolon "abc123" = true
  /\ exists before after,
       "currency=USD; OCSESSID=abc123; path=/"%string
       = (before ++ "OCSESSID=" ++ "abc123" ++ after)%string
       /\ (after = EmptyString \/ exists r, after = String ";" r).
Proof.
  apply (extractSessionToken_sound "currency=USD; OCSESSID=abc123; path=/" "abc123").
  reflexivity.
Defined.

(** X17: the session token is read back from the header that carries it.
    For every non-empty token without [;], the header made of a text
    without the letter [O], then [OCSESSID=], the token, and either
    nothing or [;] and any attributes, gives back exactly the token. *)
Theorem extractSessionToken_round_trip (before token after : string) :
  occurrences "O" before = O ->
  token <> EmptyString ->
  Text.all_chars Text.not_semicolon token = true ->
  (after = EmptyString \/ exists r, after = String ";" r) ->
  AuthAPI.extractSessionToken
    (Some (before ++ "OCSESSID=" ++ token ++ after)%string)
  = Some token.
Proof.
  intros Hbefore Hne Htoken Hafter.
  assert (Hmatch : AuthAPI.match_OCSESSID
                     (before ++ "OCSESSID=" ++ token ++ after)%string
                   = Some token).
  { induction before as [|c before IH].
    - change (EmptyString ++ "OCSESSID=" ++ token ++ after)%string
        with ("OCSESSID=" ++ (token ++ after))%string.
      destruct ("OCSESSID=" ++ (token ++ after))%string as [|x s] eqn:Hs;
        [discriminate Hs|].
      cbn [AuthAPI.match_OCSESSID]. rewrite <- Hs, strip_prefix_app.
      rewrite take_while_app; [|done|].
      + by destruct token.
      + destruct Hafter as [->|[r ->]]; [by left|right]. by exists ";"%char, r.
    - simpl in Hbefore. destruct (Ascii.eqb c "O") eqn:E; [done|].
      change ((String c before ++ "OCSESSID=" ++ token ++ after)%string)
        with (String c (before ++ "OCSESSID=" ++ token ++ after)%string).
      cbn [AuthAPI.match_OCSESSID Text.strip_prefix].
      rewrite Ascii.eqb_sym, E. by apply IH. }
  unfold AuthAPI.extractSessionToken.
  destruct (before ++ "OCSESSID=" ++ token ++ after)%string eqn:Hs; [|done].
  by destruct before.
Qed.

Lemma extractSessionToken_round_trip_witness :
  AuthAPI.extractSessionToken
    (Some ("currency=USD; " ++ "OCSESSID=" ++ "abc123" ++ "; path=/")%string)
  = Some "abc123"%string.
Proof.
  apply (extractSessionToken_round_trip "currency=USD; " "abc123" "; path=/").
  - reflexivity.
  - discriminate.
  - reflexivity.
  - right. by exists " path=/"%string.
Defined.

(** ** [extractNumber] *)

Section NumberLemmas.
Import Text TestHelpersMore.

Lemma remove_commas_app (a b : string) :
  remove_commas (a ++ b) = (remove_commas a ++ remove_commas b)%string.
Proof.
  induction a as [|c a IH]; simpl; [done|].
  destruct (Ascii.eqb c ","); by rewrite IH.
Qed.

Lemma digit_not_comma (c : ascii) : is_digit c = true -> Ascii.eqb c "," = false.
Proof.
  intros Hd. destruct (Ascii.eqb c ",") eqn:E; [|done].
  apply Ascii.eqb_eq in E. subst c. discriminate Hd.
Qed.

Lemma remove_commas_digits (s : string) :
  all_chars is_digit s = true -> remove_commas s = s.
Proof.
  induction s as [|c s IH]; simpl; [done|].
  intros [Hc Hs]%andb_prop. by rewrite (digit_not_comma c Hc), IH.
Qed.

Lemma remove_commas_run (s : string) :
  all_chars is_digit_or_comma s = true ->
  all_chars is_digit (remove_commas s) = true.
Proof.
  induction s as [|c s IH]; simpl; [done|].
  intros [Hc Hs]%andb_prop. unfold is_digit_or_comma in Hc.
  destruct (Ascii.eqb c ",") eqn:E; [by apply IH|].
  simpl. rewrite orb_false_r in Hc. by rewrite Hc, IH.
Qed.

Lemma take_while_all (p : ascii -> bool) (s : string) :
  all_chars p (take_while p s) = true.
Proof.
  induction s as [|c s IH]; simpl; [done|].
  destruct (p c) eqn:E; [|done]. simpl. by rewrite E, IH.
Qed.

Lemma drop_while_app (p : ascii -> bool) (t rest : string) :
  all_chars p t = true ->
  (rest = EmptyString \/ exists c r, rest = String c r /\ p c = false) ->
  drop_while p (t ++ rest)%string = rest.
Proof.
  intros Ht Hrest. induction t as [|c t IH]; simpl in *.
  - destruct Hrest as [->|(c & r & -> & Hc)]; simpl; [done|]. by rewrite Hc.
  - apply andb_prop in Ht as [Hc Ht]. by rewrite Hc, IH.
Qed.

(** The search for a match passes over what is neither digit nor
    comma. *)
Lemma match_number_skip (pre s : string) :
  all_chars (fun c => negb (is_digit_or_comma c)) pre = true ->
  match_number (pre ++ s)%string = match_number s.
Proof.
  induction pre as [|c pre IH]; simpl; [done|].
  intros [Hc Hpre]%andb_prop. apply negb_true_iff in Hc. by rewrite Hc, IH.
Qed.

Lemma match_number_none (text : string) :
  all_chars (fun c => negb (is_digit_or_comma c)) text = true ->
  match_number text = None.
Proof.
  induction text as [|c text IH]; simpl; [done|].
  intros [Hc Htext]%andb_prop. apply negb_true_iff in Hc. by rewrite Hc, IH.
Qed.

(** The match starts where the first run of digits and commas does. *)
Lemma match_number_run (run rest : string) :
  run <> EmptyString -> all_chars is_digit_or_comma run = true ->
  match_number (run ++ rest)%string = Some (number_at (run ++ rest)%string).
Proof.
  destruct run as [|c run]; [done|]. intros _ [Hc _]%andb_prop.
  simpl append. cbn [match_number]. by rewrite Hc.
Qed.

(** The match when no dot follows the run. *)
Lemma number_at_plain (run rest : string) :
  all_chars is_digit_or_comma run = true ->
  (rest = EmptyString
   \/ exists c r, rest = String c r /\ is_digit_or_comma c = false
                  /\ c <> "."%char) ->
  number_at (run ++ rest)%string = run.
Proof.
  intros Hrun Hrest. unfold number_at.
  assert (Hrest' : rest = EmptyString
            \/ exists c r, rest = String c r /\ is_digit_or_comma c = false).
  { destruct Hrest as [->|(c & r & -> & Hc & _)]; [by left|right].
    by exists c, r. }
  rewrite take_while_app, drop_while_app by done.
  destruct Hrest as [->|(c & r & -> & _ & Hdot)]; [done|].
  destruct (Ascii.eqb c ".") eqn:E; [|done].
  by apply Ascii.eqb_eq in E.
Qed.

(** The match when a dot follows the run: it takes the dot and the
    digits after it. *)
Lemma number_at_fraction (run frac rest : string) :
  all_chars is_digit_or_comma run = true ->
  all_chars is_digit frac = true ->
  (rest = EmptyString \/ exists c r, rest = String c r /\ is_digit c = false) ->
  number_at (run ++ "." ++ frac ++ rest)%string = (run ++ "." ++ frac)%string.
Proof.
  intros Hrun Hfrac Hrest. unfold number_at.
  assert (Hdot : ("." ++ frac ++ rest)%string = EmptyString
            \/ exists c r, ("." ++ frac ++ rest)%string = String c r
                           /\ is_digit_or_comma c = false).
  { right. by exists "."%char, (frac ++ rest)%string. }
  rewrite take_while_app, drop_while_app by done.
  simpl. by rewrite take_while_app.
Qed.

End NumberLemmas.

(** X18: [extractNumber] reads the first number of the text and nothing
    else of it. For a text without any digit or comma it returns [0].
    Otherwise the text is some [pre] without digit or comma, then a
    non-empty run of digits and commas, then the rest; when the rest
    does not start with a dot, the result is [parseFloat] of the run
    without its commas, and when the rest is a dot, a run of digits
    [frac] (possibly empty) and something that does not start with a
    digit, it is [parseFloat] of the run without its commas, the dot and
    [frac]. What is handed to [parseFloat] holds digits and at most one
    dot: in particular a minus sign in front of the number is dropped,
    and a text that starts with it gives what the text without it
    gives. *)
Theorem extractNumber_reads_first_number (parseFloat : string -> float) :
  (forall text,
     Text.all_chars (fun c => negb (Text.is_digit_or_comma c)) text = true ->
     TestHelpersMore.extractNumber parseFloat text = 0%float)
  /\ (forall pre run rest,
       Text.all_chars (fun c => negb (Text.is_digit_or_comma c)) pre = true ->
       run <> EmptyString ->
       Text.all_chars Text.is_digit_or_comma run = true ->
       (rest = EmptyString
        \/ exists c r, rest = String c r /\ Text.is_digit_or_comma c = false
                       /\ c <> "."%char) ->
       TestHelpersMore.extractNumber parseFloat (pre ++ run ++ rest)%string
       = parseFloat (TestHelpersMore.remove_commas run)
       /\ Text.all_chars Text.is_digit (TestHelpersMore.remove_commas run) = true)
  /\ (forall pre run frac rest,
       Text.all_chars (fun c => negb (Text.is_digit_or_comma c)) pre = true ->
       run <> EmptyString ->
       Text.all_chars Text.is_digit_or_comma run = true ->
       Text.all_chars Text.is_digit frac = true ->
       (rest = EmptyString
        \/ exists c r, rest = String c r /\ Text.is_digit c = false) ->
       TestHelpersMore.extractNumber parseFloat
         (pre ++ run ++ "." ++ frac ++ rest)%string
       = parseFloat (TestHelpersMore.remove_commas run ++ "." ++ frac)%string
       /\ Text.all_chars Text.is_digit (TestHelpersMore.remove_commas run) = true)
  /\ (forall text,
       TestHelpersMore.extractNumber parseFloat (String "-" text)
       = TestHelpersMore.extractNumber parseFloat text).
Proof.
  unfold TestHelpersMore.extractNumber. split; [|split; [|split]].
  - intros text Htext. by rewrite match_number_none.
  - intros pre run rest Hpre Hne Hrun Hrest.
    rewrite match_number_skip, match_number_run, number_at_plain by done.
    split; [done|by apply remove_commas_run].
  - intros pre run frac rest Hpre Hne Hrun Hfrac Hrest.
    rewrite match_number_skip, match_number_run, number_at_fraction by done.
    rewrite remove_commas_app. simpl.
    rewrite (remove_commas_digits frac Hfrac).
    split; [done|by apply remove_commas_run].
  - intros text. reflexivity.
Qed.

Lemma extractNumber_reads_first_number_witness :
  TestHelpersMore.extractNumber Samples.length_of
    ("Total: -$" ++ "1,234" ++ "." ++ "56" ++ " USD")%string
  = Samples.length_of "1234.56"%string.
Proof.
  destruct (extractNumber_reads_first_number Samples.length_of)
    as (_ & _ & Hfrac & _).
  destruct (Hfrac "Total: -$" "1,234" "56" " USD")%string as [Hvalue _].
  - reflexivity.
  - discriminate.
  - reflexivity.
  - reflexivity.
  - right. exists " "%char, "USD"%string. split; reflexivity.
  - exact Hvalue.
Defined.

(** ** The requests of the clients *)

Section RequestLemmas.
Import URLSearchParams Text Clients.
Local Open Scope string_scope.

Lemma string_app_assoc (a b c : string) : (a ++ b) ++ c = a ++ b ++ c.
Proof. induction a as [|x a IH]; simpl; [done|]. by rewrite IH. Qed.

Lemma string_app_nil_r (a : string) : a ++ "" = a.
Proof. induction a as [|x a IH]; simpl; [done|]. by rewrite IH. Qed.

Lemma all_chars_occurrences (p : ascii -> bool) (d : ascii) (s : string) :
  p d = false -> all_chars p s = true -> occurrences d s = O.
Proof.
  intros Hd. induction s as [|c s IH]; simpl; [done|].
  intros [Hc Hs]%andb_prop. rewrite IH by done.
  destruct (Ascii.eqb c d) eqn:E; [|done].
  apply Ascii.eqb_eq in E. congruence.
Qed.

Lemma route_char_literal (s : string) :
  all_chars route_char s = true -> all_chars literal_char s = true.
Proof.
  assert (H : forall c, implb (route_char c) (literal_char c) = true)
    by (apply all_bytes; vm_compute; reflexivity).
  induction s as [|c s IH]; simpl; [done|].
  intros [Hc Hs]%andb_prop. specialize (H c). rewrite Hc in H. simpl in H.
  by rewrite H, IH.
Qed.

(** Decoding leaves a text without [+] and [%] as it is. *)
Lemma urldecode_literal_app (a b : string) :
  all_chars literal_char a = true -> urldecode (a ++ b) = a ++ urldecode b.
Proof.
  unfold urldecode. induction a as [|c a IH]; simpl; [done|].
  intros [Hc Ha]%andb_prop. unfold literal_char in Hc.
  apply negb_true_iff, orb_false_iff in Hc as [Hplus Hpercent].
  rewrite Hplus, Hpercent. by rewrite IH.
Qed.

Lemma urldecode_literal_cons (c : ascii) (b : string) :
  literal_char c = true -> urldecode (String c b) = String c (urldecode b).
Proof.
  intros Hc. apply (urldecode_literal_app (String c "") b). simpl.
  by rewrite Hc.
Qed.

Lemma urldecode_urlencode_app (k b : string) :
  urldecode (urlencode k ++ b) = k ++ urldecode b.
Proof.
  unfold urldecode. induction k as [|c k IH]; simpl; [done|].
  rewrite string_app_assoc, plus_to_space_app, percent_decode_encode_byte.
  by rewrite IH.
Qed.

Lemma parse_pieces (pairs : list (string * string)) :
  map parse_pair
    (List.filter (fun piece => negb (String.eqb piece ""))
       (map pair_string pairs))
  = pairs.
Proof.
  induction pairs as [|p pairs IH]; simpl; [done|].
  rewrite pair_string_nonempty. simpl. by rewrite parse_pair_string, IH.
Qed.

(** The query that a route and a first parameter make together reads as
    one parameter. *)
Lemma parse_glued (route k v : string) (rest : list (string * string)) :
  all_chars route_char route = true ->
  parse ("route=" ++ route ++ "?" ++ toString ((k, v) :: rest))
  = ("route", route ++ "?" ++ k ++ "=" ++ v) :: rest.
Proof.
  intros Hroute.
  set (piece := "route=" ++ route ++ "?" ++ pair_string (k, v)).
  assert (Hclean : occurrences "&" piece = O).
  { unfold piece. rewrite !occurrences_app.
    rewrite (all_chars_occurrences route_char "&" route) by done.
    rewrite pair_string_clean by (by left). reflexivity. }
  assert (Hpair : parse_pair piece = ("route", route ++ "?" ++ k ++ "=" ++ v)).
  { unfold piece, parse_pair. cbn [append split_first Ascii.eqb Bool.eqb].
    simpl.
    change (urldecode "route") with "route". f_equal.
    rewrite urldecode_literal_app by (by apply route_char_literal).
    rewrite urldecode_literal_cons by reflexivity.
    unfold pair_string. cbn [fst snd].
    rewrite urldecode_urlencode_app.
    change ("=" ++ urlencode v) with (String "=" (urlencode v)).
    rewrite urldecode_literal_cons by reflexivity.
    by rewrite urldecode_urlencode. }
  unfold parse, toString.
  destruct rest as [|q rest].
  - change (String.concat "&" (map pair_string [(k, v)])) with (pair_string (k, v)).
    fold piece. rewrite split_clean by done. cbn [List.filter].
    destruct (String.eqb piece "") eqn:E.
    { apply String.eqb_eq in E. unfold piece in E. discriminate E. }
    cbn [negb map]. by rewrite Hpair.
  - change (String.concat "&" (map pair_string ((k, v) :: q :: rest)))
      with (pair_string (k, v)
            ++ String "&" (String.concat "&" (map pair_string (q :: rest)))).
    replace ("route=" ++ route ++ "?" ++ pair_string (k, v)
             ++ String "&" (String.concat "&" (map pair_string (q :: rest))))
      with (piece ++ String "&" (String.concat "&" (map pair_string (q :: rest)))).
    2:{ unfold piece. by rewrite !string_app_assoc. }
    rewrite split_app by done. rewrite split_concat.
    generalize (q :: rest). intros l.
    cbn [List.filter].
    destruct (String.eqb piece "") eqn:E.
    { apply String.eqb_eq in E. unfold piece in E. discriminate E. }
    cbn [negb map]. by rewrite Hpair, parse_pieces.
Qed.

(** The query of a URL built on a route endpoint. *)
Lemma query_of_route (base route tail : string) :
  occurrences "?" base = O ->
  query_of ((base ++ "/index.php?route=" ++ route) ++ tail)
  = Some ("route=" ++ route ++ tail).
Proof.
  intros Hbase. unfold query_of.
  replace ((base ++ "/index.php?route=" ++ route) ++ tail)
    with ((base ++ "/index.php") ++ String "?" ("route=" ++ route ++ tail)).
  2:{ rewrite !string_app_assoc. reflexivity. }
  rewrite split_first_clean; [done|].
  rewrite occurrences_app, Hbase. reflexivity.
Qed.

End RequestLemmas.

(** X19: on an endpoint of the form [/index.php?route=...], the first
    query parameter that [buildURL] appends does not arrive as a
    parameter. The standard query parser reads the URL's query (what
    follows the first [?]) as the pair [route], whose value is the route
    followed by [?], the first parameter's name, [=] and its value, and
    then the remaining parameters: no parameter bears the first one's
    name. *)
Theorem buildURL_glues_first_param (this : BaseAPIClient.t) (route : string)
    (params : Record_.t) (k v : string) (rest : list (string * string)) :
  occurrences "?" (BaseAPIClient.baseURL this) = O ->
  Text.all_chars Clients.route_char route = true ->
  URLSearchParams.of_record params = (k, v) :: rest ->
  exists q,
    Clients.query_of
      (BaseAPIClient.buildURL this ("/index.php?route=" ++ route) (Some params))
    = Some q
    /\ URLSearchParams.parse q
       = ("route", route ++ "?" ++ k ++ "=" ++ v)%string :: rest.
Proof.
  intros Hbase Hroute Hparams. unfold BaseAPIClient.buildURL. rewrite Hparams.
  eexists. split.
  - by apply query_of_route.
  - by apply parse_glued.
Qed.

Lemma buildURL_glues_first_param_witness :
  exists q,
    Clients.query_of
      (BaseAPIClient.buildURL Samples.demo_client
         ("/index.php?route=" ++ "api/product") (Some Samples.limit_then_start))
    = Some q
    /\ URLSearchParams.parse q
       = [("route", "api/product?limit=20"); ("start", "0")]%string.
Proof.
  apply (buildURL_glues_first_param Samples.demo_client "api/product"
           Samples.limit_then_start "limit" "20" [("start", "0")]%string);
    reflexivity.
Defined.

(** X20: the requests of the clients that pass one parameter to a route
    endpoint ([getProductById], [removeFromCart], [verifyEmail]) and
    [searchProducts] send a URL in whose query the standard parser finds
    the product id, cart key, token or search text inside the value of
    [route], not as a parameter of its own, whatever that id, key, token
    or text is. *)
Theorem client_requests_glue_first_param (this : BaseAPIClient.t)
    (productId : Record_.pvalue) (cartItemId token query : string)
    (params : option Clients.SearchParams) :
  occurrences "?" (BaseAPIClient.baseURL this) = O ->
  (exists q,
      Clients.query_of (Clients.getProductById id this productId) = Some q
      /\ URLSearchParams.parse q
         = [("route", "api/product?product_id=" ++ Record_.to_string productId)]%string)
  /\ (exists q,
        Clients.query_of (Clients.removeFromCart id this cartItemId) = Some q
        /\ URLSearchParams.parse q
           = [("route", "checkout/cart/remove?key=" ++ cartItemId)]%string)
  /\ (exists q,
        Clients.query_of (Clients.verifyEmail id this token) = Some q
        /\ URLSearchParams.parse q
           = [("route", "account/success?token=" ++ token)]%string)
  /\ (exists q,
        Clients.query_of (Clients.searchProducts id this query params) = Some q
        /\ URLSearchParams.parse q
           = [("route", "product/search?search=" ++ query);
              ("limit",
               JS.string_of_Z
                 (ProductsAPI.number_or (params ≫= Clients.search_limit) 20));
              ("category_id",
               JS.string_of_Z
                 (ProductsAPI.number_or (params ≫= Clients.categoryId) 0))]%string).
Proof.
  intros Hbase.
  split; [|split; [|split]]; eexists;
    (split; [by apply (query_of_route (BaseAPIClient.baseURL this))|]).
  - apply (parse_glued "api/product"). reflexivity.
  - apply (parse_glued "checkout/cart/remove"). reflexivity.
  - apply (parse_glued "account/success"). reflexivity.
  - apply (parse_glued "product/search"). reflexivity.
Qed.

Lemma client_requests_glue_first_param_witness :
  exists q,
    Clients.query_of
      (Clients.getProductById id Samples.demo_client (Record_.PString "43"))
    = Some q
    /\ URLSearchParams.parse q = [("route", "api/product?product_id=43")]%string.
Proof.
  destruct (client_requests_glue_first_param Samples.demo_client
              (Record_.PString "43") "" "" "" None) as [H _];
    [reflexivity|exact H].
Defined.

(** X21: without params the route arrives whole: [buildURL] returns the
    base URL and the endpoint as they are, and the query reads as the
    single pair [route]; this is the URL that [getCart] requests. An empty
    params object is not the same as none: it leaves a [?] at the end,
    which the parser reads as part of the route's value. *)
Theorem buildURL_without_params (this : BaseAPIClient.t) (route : string) :
  occurrences "?" (BaseAPIClient.baseURL this) = O ->
  Text.all_chars Clients.route_char route = true ->
  BaseAPIClient.buildURL this ("/index.php?route=" ++ route) None
  = (BaseAPIClient.baseURL this ++ "/index.php?route=" ++ route)%string
  /\ (exists q,
        Clients.query_of
          (BaseAPIClient.buildURL this ("/index.php?route=" ++ route) None)
        = Some q
        /\ URLSearchParams.parse q = [("route", route)]%string)
  /\ (exists q,
        Clients.query_of
          (BaseAPIClient.buildURL this ("/index.php?route=" ++ route) (Some []))
        = Some q
        /\ URLSearchParams.parse q = [("route", route ++ "?")]%string)
  /\ Clients.getCart id this
     = (BaseAPIClient.baseURL this ++ "/index.php?route=checkout/cart")%string.
Proof.
  intros Hbase Hroute.
  assert (Hpiece : forall tail,
             Text.all_chars Clients.literal_char tail = true ->
             occurrences "&" tail = O ->
             URLSearchParams.parse ("route=" ++ route ++ tail)
             = [("route", route ++ tail)]%string).
  { intros tail Htail Hamp. unfold URLSearchParams.parse.
    rewrite split_clean.
    2:{ change ("route=" ++ route ++ tail)%string
          with ("route=" ++ (route ++ tail))%string.
        rewrite !occurrences_app, Hamp.
        by rewrite (all_chars_occurrences Clients.route_char "&" route). }
    simpl. unfold URLSearchParams.parse_pair. simpl.
    change (URLSearchParams.urldecode "route") with "route"%string.
    do 2 f_equal.
    rewrite urldecode_literal_app by (by apply route_char_literal).
    by rewrite <- (string_app_nil_r tail) at 1;
      rewrite urldecode_literal_app, string_app_nil_r. }
  split; [reflexivity|]. split; [|split; [|reflexivity]].
  - exists ("route=" ++ route)%string. split.
    + unfold BaseAPIClient.buildURL.
      rewrite <- (string_app_nil_r (BaseAPIClient.baseURL this ++ _)).
      rewrite query_of_route by done. by rewrite string_app_nil_r.
    + rewrite <- (string_app_nil_r route) at 1.
      rewrite (Hpiece ""%string) by reflexivity.
      by rewrite string_app_nil_r.
  - exists ("route=" ++ route ++ "?")%string. split.
    + unfold BaseAPIClient.buildURL. by rewrite query_of_route.
    + by apply Hpiece.
Qed.

Lemma buildURL_without_params_witness :
  exists q,
    Clients.query_of
      (BaseAPIClient.buildURL Samples.demo_client
         ("/index.php?route=" ++ "checkout/cart") None)
    = Some q
    /\ URLSearchParams.parse q = [("route", "checkout/cart")]%string.
Proof.
  destruct (buildURL_without_params Samples.demo_client "checkout/cart")
    as (_ & H & _); [reflexivity|reflexivity|exact H].
Defined.

(** ** The characters of a query string *)

Section QueryChars.
Import URLSearchParams Text Clients.
Local Open Scope string_scope.

Lemma all_chars_app (p : ascii -> bool) (a b : string) :
  all_chars p (a ++ b) = all_chars p a && all_chars p b.
Proof.
  induction a as [|c a IH]; simpl; [done|]. by rewrite IH, andb_assoc.
Qed.

Lemma encode_byte_query_chars (c : ascii) :
  all_chars query_char (encode_byte c) = true.
Proof.
  revert c. apply (all_bytes (fun c => all_chars query_char (encode_byte c))).
  vm_compute. reflexivity.
Qed.

Lemma urlencode_query_chars (s : string) :
  all_chars query_char (urlencode s) = true.
Proof.
  induction s as [|c s IH]; simpl; [done|].
  by rewrite all_chars_app, encode_byte_query_chars, IH.
Qed.

Lemma pair_string_query_chars (p : string * string) :
  all_chars query_char (pair_string p) = true.
Proof.
  unfold pair_string. rewrite !all_chars_app, !urlencode_query_chars.
  reflexivity.
Qed.

End QueryChars.

(** X22: the query that [buildURL] appends is made of URL-safe ASCII
    characters only, whatever the names and values of the parameters:
    letters, digits, [*], [-], [.], [_], and the [+], [%], [=] and [&] of
    the encoding. No space, no [#], no [?] and no byte outside ASCII ever
    appears in it. *)
Theorem buildURL_query_is_url_safe (this : BaseAPIClient.t) (endpoint : string)
    (params : Record_.t) :
  exists q,
    BaseAPIClient.buildURL this endpoint (Some params)
    = ((BaseAPIClient.baseURL this ++ endpoint) ++ "?" ++ q)%string
    /\ Text.all_chars Clients.query_char q = true.
Proof.
  exists (URLSearchParams.toString (URLSearchParams.of_record params)).
  split; [reflexivity|].
  unfold URLSearchParams.toString.
  induction (URLSearchParams.of_record params) as [|p [|q pairs] IH].
  - reflexivity.
  - apply pair_string_query_chars.
  - change (String.concat "&" (map URLSearchParams.pair_string (p :: q :: pairs)))
      with (URLSearchParams.pair_string p
            ++ String "&" (String.concat "&"
                             (map URLSearchParams.pair_string (q :: pairs))))%string.
    rewrite all_chars_app, pair_string_query_chars.
    simpl in IH |- *. exact IH.
Qed.
